(** * HMAC with multi-round update: providers/cryptography/hmac.c

    A shallow embedding of [buffer_size_get],
    [hmac_multi_digest_nonnull_output], [hmac_multi_digest_null_output],
    [hmac_multi_digest] and [hmac_digest], and the properties of the buffer
    validation, the round protocol and the clean-up paths.

    The C functions work on pointers to stringers, mutate the output stringer
    in place, call the OpenSSL HMAC primitives and the stringer allocator, and
    leave through the labels [cleanup_ctx], [cleanup_alloced_output] and
    [error].  The embedding keeps all of this: a heap of stringers addressed
    by locations, a trace of the calls made to the outside, and a monad that
    threads both.  The wrappers that bind a named digest ([hmac_md5],
    [hmac_sha512], ...) apply [hmac_digest] or [hmac_multi_digest] to a
    handle of OpenSSL; they come after the core, over the handles as
    parameters. *)

From Stdlib Require Import ZArith NArith List Lia.
From Stdlib.Strings Require Import Byte.
From stdpp Require Import base option list gmap.

Local Open Scope Z_scope.

(** ** Machine integers *)

(** [int_t] is [int32_t], [uint_t] is [uint32_t], [size_t] has 64 bits.  The
    values of [int_t] and of the primitives' [int] results are kept in [Z];
    sizes ([size_t]) and round counts ([uint_t]) are kept in [N]: the code
    only compares them and counts up to them. *)

Definition int_t_of (z : Z) : Z := (z + 2 ^ 31) mod 2 ^ 32 - 2 ^ 31.

Definition uint_t_of (z : Z) : Z := z mod 2 ^ 32.

Definition size_t_of (z : Z) : N := Z.to_N (z mod 2 ^ 64).

(** A [size_t] handed to an [int] parameter, as the key length is to
    [HMAC_Init_ex] (line 107): the value wraps to 32 bits, two's
    complement.  It is the length itself below 2^31. *)
Definition int_of_size_t (n : N) : Z := int_t_of (Z.of_N n).

(** ** Stringers and the heap *)

Definition loc := positive.

(** A C pointer to a stringer: [None] is [NULL]. *)
Definition ptr := option loc.

(** A stringer: the option word at offset 0 of its header, the length, the
    available size (meaningful when the options say so) and the bytes of its
    data region. *)
Record stringer_t := Stringer {
  st_opts : Z;
  st_length : N;
  st_avail : N;
  st_data : list byte
}.

Definition set_length (b : stringer_t) (n : N) : stringer_t :=
  {| st_opts := st_opts b; st_length := n;
     st_avail := st_avail b; st_data := st_data b |}.

Definition set_data (b : stringer_t) (d : list byte) : stringer_t :=
  {| st_opts := st_opts b; st_length := st_length b;
     st_avail := st_avail b; st_data := d |}.

(** What a primitive that is handed the address of a data region does to it
    when it stores [bs] there: the bytes land at offset 0 and the rest of the
    region stays.  Storing beyond the end of the region is out of bounds in
    C, where it may overwrite anything; here the region grows and nothing
    else changes.  So a statement about what a store leaves alone is sound
    only for stores that fit in the region, and says so in a hypothesis.
    The data regions of different stringers do not overlap here: a stringer
    that points into the bytes of another is outside this model. *)
Definition write_at0 (bs region : list byte) : list byte :=
  bs ++ drop (length bs) region.

(** ** The outside world

    magma.h, the stringer library and the dynamically loaded OpenSSL symbols
    are not part of hmac.c.  They are taken as parameters: the three option
    predicates, the digest-size query, the HMAC primitives on an abstract
    context, and the allocator.  [EVP_MD_size_d] takes the handle as the
    pointer it is, because [hmac_multi_digest_null_output] calls it before
    anyone has looked at the handle. *)
Record Externals := {
  digest_t : Type;
  HMAC_CTX : Type;
  st_valid_avail : Z -> bool;
  st_valid_destination : Z -> bool;
  st_valid_tracked : Z -> bool;
  EVP_MD_size_d : option digest_t -> Z;
  HMAC_CTX_init_d : HMAC_CTX;
  (** context, key bytes, key length (an [int]), digest *)
  HMAC_Init_ex_d : HMAC_CTX -> list byte -> Z -> digest_t -> Z * HMAC_CTX;
  HMAC_Update_d : HMAC_CTX -> list byte -> N -> Z * HMAC_CTX;
  (** status, bytes stored at the destination, value stored in the length
      out-parameter, context afterwards *)
  HMAC_Final_d : HMAC_CTX -> Z * list byte * Z * HMAC_CTX;
  (** the contents of the fresh stringer, or [None] for [NULL] *)
  st_alloc : N -> option stringer_t
}.

(** The messages hmac.c logs, one per [log_pedantic]/[log_error] call, in the
    order of the source. *)
Inductive log_msg :=
| LogRounds | LogDigestNull | LogDigestSize | LogInputEmpty | LogKeyEmpty
| LogOutputNull | LogNotWritable | LogTooSmall
| LogInitFailed | LogUpdateFailed | LogFinalFailed | LogSizeMismatch
| LogAllocFailed.

Section Hmac.

Context (E : Externals).

(** The calls that leave hmac.c, with their arguments.  [EvHmacFinal] also
    records what the primitive answered: its status, the bytes it stored and
    the length it reported. *)
Inductive event :=
| EvLog (m : log_msg)
| EvCtxInit
| EvHmacInit (key : list byte) (klen : Z) (d : digest_t E)
| EvHmacUpdate (data : list byte) (len : N)
| EvHmacFinal (dst : loc) (status : Z) (written : list byte) (reported : Z)
| EvCtxCleanup
| EvAlloc (n : N) (res : ptr)
| EvFree (l : loc).

Record world := World {
  heap : gmap loc stringer_t;
  trace : list event
}.

(** A computation either finishes with a value and a world, or faults: it
    dereferenced [NULL] or a location that holds no stringer. *)
Inductive outcome (A : Type) :=
| Done (a : A) (w : world)
| Fault.
Arguments Done {A} a w.
Arguments Fault {A}.

Definition M (A : Type) : Type := world -> outcome A.

Definition ret {A} (a : A) : M A := fun w => Done a w.

Definition bind {A B} (m : M A) (k : A -> M B) : M B :=
  fun w => match m w with
           | Done a w' => k a w'
           | Fault => Fault
           end.

Notation "x <- m ;; k" := (bind m (fun x => k))
  (at level 100, m at next level, right associativity).
Notation "m ;;; k" := (bind m (fun _ => k))
  (at level 100, right associativity).

Definition emit (ev : event) : M unit :=
  fun w => Done tt {| heap := heap w; trace := trace w ++ [ev] |}.

Definition log (m : log_msg) : M unit := emit (EvLog m).

Definition load (p : ptr) : M stringer_t :=
  fun w => match p with
           | None => Fault
           | Some l => match heap w !! l with
                       | Some b => Done b w
                       | None => Fault
                       end
           end.

Definition store (l : loc) (b : stringer_t) : M unit :=
  fun w => match heap w !! l with
           | Some _ => Done tt {| heap := <[l := b]> (heap w); trace := trace w |}
           | None => Fault
           end.

(** *** Stringer accessors of magma.h *)

Definition st_length_get (p : ptr) : M N := b <- load p ;; ret (st_length b).

Definition st_avail_get (p : ptr) : M N := b <- load p ;; ret (st_avail b).

Definition st_data_get (p : ptr) : M (list byte) := b <- load p ;; ret (st_data b).

Definition st_length_set (l : loc) (n : N) : M unit :=
  b <- load (Some l) ;; store l (set_length b n).

(** Modelled from the spec: [st_empty] is declared in magma.h, which is not
    among the sources.  The spec's words: the input and the key must be
    "present and non-empty"; "empty or absent" is a validation error.  So
    [st_empty] answers true for [NULL] and for a stringer of length 0. *)
Definition st_empty (p : ptr) : M bool :=
  match p with
  | None => ret true
  | Some _ => b <- load p ;; ret (st_length b =? 0)%N
  end.

(** [st_alloc]: the allocator decides the contents; the stringer is placed at
    a location that holds nothing yet. *)
Definition st_alloc_at (n : N) : M ptr :=
  fun w => match st_alloc E n with
           | None => Done None {| heap := heap w; trace := trace w ++ [EvAlloc n None] |}
           | Some b =>
               let l := fresh (dom (heap w)) in
               Done (Some l) {| heap := <[l := b]> (heap w);
                                trace := trace w ++ [EvAlloc n (Some l)] |}
           end.

Definition st_free (l : loc) : M unit :=
  fun w => match heap w !! l with
           | Some _ => Done tt {| heap := delete l (heap w);
                                  trace := trace w ++ [EvFree l] |}
           | None => Fault
           end.

(** ** hmac.c *)

(** [buffer_size_get], lines 26-37. *)
Definition buffer_size_get (buffer : ptr) : M N :=
  b <- load buffer ;;
  let opts := st_opts b in
  if st_valid_avail E opts then st_avail_get buffer
  else st_length_get buffer.

(** The two exit labels of [hmac_multi_digest_nonnull_output]. *)
Definition error : M ptr := ret None.

Definition cleanup_ctx : M ptr := emit EvCtxCleanup ;;; error.

(** The [for] loop of lines 114-122, by the number of rounds still to run: it
    answers the context and whether every update returned 1 (when one does
    not, the message is logged and the loop is left). *)
Fixpoint update_rounds (n : nat) (ctx : HMAC_CTX E) (s : ptr)
  : M (bool * HMAC_CTX E) :=
  match n with
  | O => ret (true, ctx)
  | S n' =>
      data <- st_data_get s ;;
      len <- st_length_get s ;;
      emit (EvHmacUpdate data len) ;;;
      let '(r, ctx') := HMAC_Update_d E ctx data len in
      if negb (r =? 1) then log LogUpdateFailed ;;; ret (false, ctx')
      else update_rounds n' ctx' s
  end.

(** The call of [HMAC_Final_d] on the data region of [output], line 124. *)
Definition hmac_final (ctx : HMAC_CTX E) (output : loc) : M (Z * Z) :=
  b <- load (Some output) ;;
  let '(r, written, reported, _) := HMAC_Final_d E ctx in
  store output (set_data b (write_at0 written (st_data b))) ;;;
  emit (EvHmacFinal output r written reported) ;;;
  ret (r, uint_t_of reported).

(** [hmac_multi_digest_nonnull_output], lines 39-149. *)
Definition hmac_multi_digest_nonnull_output
    (rounds : N) (digest : option (digest_t E)) (s key output : ptr) : M ptr :=
  if (rounds <? 1)%N then log LogRounds ;;; error else
  match digest with
  | None => log LogDigestNull ;;; error
  | Some d =>
  let digest_output_size := int_t_of (EVP_MD_size_d E (Some d)) in
  if digest_output_size <? 1 then log LogDigestSize ;;; error else
  s_empty <- st_empty s ;;
  if s_empty then log LogInputEmpty ;;; error else
  key_empty <- st_empty key ;;
  if key_empty then log LogKeyEmpty ;;; error else
  match output with
  | None => log LogOutputNull ;;; error
  | Some out =>
  b <- load output ;;
  let opts := st_opts b in
  if negb (st_valid_destination E opts) then log LogNotWritable ;;; error else
  buffer_size <- buffer_size_get output ;;
  if (buffer_size <? size_t_of digest_output_size)%N
  then log LogTooSmall ;;; error else
  emit EvCtxInit ;;;
  let ctx := HMAC_CTX_init_d E in
  kdata <- st_data_get key ;;
  klen <- st_length_get key ;;
  let klen := int_of_size_t klen in
  emit (EvHmacInit kdata klen d) ;;;
  let '(r, ctx) := HMAC_Init_ex_d E ctx kdata klen d in
  if negb (r =? 1) then log LogInitFailed ;;; cleanup_ctx else
  upd <- update_rounds (N.to_nat rounds) ctx s ;;
  let '(ok, ctx) := upd in
  if negb ok then cleanup_ctx else
  fin <- hmac_final ctx out ;;
  let '(r, hmac_output_size) := fin in
  if negb (r =? 1) then log LogFinalFailed ;;; cleanup_ctx else
  if negb (uint_t_of digest_output_size =? hmac_output_size)
  then log LogSizeMismatch ;;; cleanup_ctx else
  (if st_valid_tracked E opts
   then st_length_set out (size_t_of digest_output_size)
   else ret tt) ;;;
  emit EvCtxCleanup ;;;
  ret output
  end
  end.

(** [hmac_multi_digest_null_output], lines 151-188. *)
Definition hmac_multi_digest_null_output
    (rounds : N) (digest : option (digest_t E)) (s key : ptr) : M ptr :=
  let digest_output_size := int_t_of (EVP_MD_size_d E digest) in
  alloced_output <- st_alloc_at (size_t_of digest_output_size) ;;
  match alloced_output with
  | None => log LogAllocFailed ;;; error
  | Some a =>
      output <- hmac_multi_digest_nonnull_output rounds digest s key alloced_output ;;
      match output with
      | None => st_free a ;;; error
      | Some _ => ret output
      end
  end.

(** [hmac_multi_digest], lines 201-227. *)
Definition hmac_multi_digest
    (rounds : N) (digest : option (digest_t E)) (s key output : ptr) : M ptr :=
  match output with
  | None => hmac_multi_digest_null_output rounds digest s key
  | Some _ => hmac_multi_digest_nonnull_output rounds digest s key output
  end.

(** [hmac_digest], lines 237-240. *)
Definition hmac_digest (digest : option (digest_t E)) (s key output : ptr) : M ptr :=
  hmac_multi_digest 1%N digest s key output.

(** ** The vocabulary of the specification *)

(** The algorithm's declared output size, as [digest_output_size] holds it. *)
Definition digest_size (d : digest_t E) : Z :=
  int_t_of (EVP_MD_size_d E (Some d)).

(** The effective available size, in the specification's words: the capacity
    when AVAILABLE is set, the length otherwise.  ([buffer_size_get] is the
    code's version.) *)
Definition effective_size (b : stringer_t) : N :=
  if st_valid_avail E (st_opts b) then st_avail b else st_length b.

Definition writable (b : stringer_t) : bool := st_valid_destination E (st_opts b).

Definition tracked (b : stringer_t) : bool := st_valid_tracked E (st_opts b).

(** A pointer a C caller may pass: [NULL], or the address of a stringer. *)
Definition valid_ptr (h : gmap loc stringer_t) (p : ptr) : bool :=
  match p with
  | None => true
  | Some l => match h !! l with Some _ => true | None => false end
  end.

Definition present_nonempty (h : gmap loc stringer_t) (p : ptr) : bool :=
  match p with
  | None => false
  | Some l => match h !! l with
              | Some b => negb (st_length b =? 0)%N
              | None => false
              end
  end.

Definition digest_resolves (digest : option (digest_t E)) : bool :=
  match digest with
  | None => false
  | Some d => 1 <=? digest_size d
  end.

Definition output_fits (h : gmap loc stringer_t)
    (digest : option (digest_t E)) (output : ptr) : bool :=
  match digest, output with
  | Some d, Some l =>
      match h !! l with
      | Some b => writable b && (digest_size d <=? Z.of_N (effective_size b))
      | None => false
      end
  | _, _ => false
  end.

(** The five preconditions of the specification (4.3), and the first one a
    call violates when they are checked in the specification's order. *)
Inductive precondition := PreRounds | PreDigest | PreInput | PreKey | PreOutput.

Definition first_violated (h : gmap loc stringer_t) (rounds : N)
    (digest : option (digest_t E)) (s key output : ptr) : option precondition :=
  if negb (1 <=? rounds)%N then Some PreRounds
  else if negb (digest_resolves digest) then Some PreDigest
  else if negb (present_nonempty h s) then Some PreInput
  else if negb (present_nonempty h key) then Some PreKey
  else if negb (output_fits h digest output) then Some PreOutput
  else None.

(** The precondition a logged message speaks of; the messages of the
    protocol and of the allocator speak of none. *)
Definition precondition_of (m : log_msg) : option precondition :=
  match m with
  | LogRounds => Some PreRounds
  | LogDigestNull | LogDigestSize => Some PreDigest
  | LogInputEmpty => Some PreInput
  | LogKeyEmpty => Some PreKey
  | LogOutputNull | LogNotWritable | LogTooSmall => Some PreOutput
  | _ => None
  end.

(** Reading a trace. *)
Definition is_log (ev : event) : bool :=
  match ev with EvLog _ => true | _ => false end.

Definition is_ctx_init (ev : event) : bool :=
  match ev with EvCtxInit => true | _ => false end.

Definition is_ctx_cleanup (ev : event) : bool :=
  match ev with EvCtxCleanup => true | _ => false end.

Definition is_keying (ev : event) : bool :=
  match ev with EvHmacInit _ _ _ => true | _ => false end.

Definition is_update (ev : event) : bool :=
  match ev with EvHmacUpdate _ _ => true | _ => false end.

Definition is_final (ev : event) : bool :=
  match ev with EvHmacFinal _ _ _ _ => true | _ => false end.

(** A call into the HMAC primitive or the context life cycle. *)
Definition is_crypto (ev : event) : bool :=
  is_ctx_init ev || is_keying ev || is_update ev || is_final ev || is_ctx_cleanup ev.

Definition only (f : event -> bool) (evs : list event) : list event :=
  List.filter f evs.

Definition count (f : event -> bool) (evs : list event) : nat :=
  length (only f evs).

(** The number of contexts that are open after a trace: [HMAC_CTX_init_d]
    opens one, [HMAC_CTX_cleanup_d] releases one. *)
Definition open_contexts (evs : list event) : Z :=
  Z.of_nat (count is_ctx_init evs) - Z.of_nat (count is_ctx_cleanup evs).

(** How a call that passed the validations went on: the primitive that
    stopped it, or none.  Used to describe the runs of the round protocol. *)
Inductive protocol_end :=
| EndInitFailed
| EndUpdateFailed (k : nat)
| EndFinalFailed (status : Z) (written : list byte) (reported : Z)
| EndSizeMismatch (written : list byte) (reported : Z)
| EndSuccess (written : list byte) (reported : Z).

Definition end_updates (rounds : N) (e : protocol_end) : nat :=
  match e with
  | EndInitFailed => 0
  | EndUpdateFailed k => k
  | _ => N.to_nat rounds
  end.

Definition end_tail (out : loc) (e : protocol_end) : list event :=
  match e with
  | EndInitFailed => [EvLog LogInitFailed; EvCtxCleanup]
  | EndUpdateFailed _ => [EvLog LogUpdateFailed; EvCtxCleanup]
  | EndFinalFailed st wr rep =>
      [EvHmacFinal out st wr rep; EvLog LogFinalFailed; EvCtxCleanup]
  | EndSizeMismatch wr rep =>
      [EvHmacFinal out 1 wr rep; EvLog LogSizeMismatch; EvCtxCleanup]
  | EndSuccess wr rep => [EvHmacFinal out 1 wr rep; EvCtxCleanup]
  end.

Definition end_events (rounds : N) (d : digest_t E) (bs bk : stringer_t)
    (out : loc) (e : protocol_end) : list event :=
  [EvCtxInit; EvHmacInit (st_data bk) (int_of_size_t (st_length bk)) d]
  ++ repeat (EvHmacUpdate (st_data bs) (st_length bs)) (end_updates rounds e)
  ++ end_tail out e.

Definition end_ret (out : loc) (e : protocol_end) : ptr :=
  match e with
  | EndSuccess _ _ => Some out
  | _ => None
  end.

Definition end_output (d : digest_t E) (bo : stringer_t) (e : protocol_end)
  : stringer_t :=
  match e with
  | EndInitFailed | EndUpdateFailed _ => bo
  | EndFinalFailed _ wr _ | EndSizeMismatch wr _ =>
      set_data bo (write_at0 wr (st_data bo))
  | EndSuccess wr _ =>
      let bo' := set_data bo (write_at0 wr (st_data bo)) in
      if tracked bo then set_length bo' (size_t_of (digest_size d)) else bo'
  end.

Definition end_ok (rounds : N) (d : digest_t E) (e : protocol_end) : Prop :=
  match e with
  | EndInitFailed => True
  | EndUpdateFailed k => (1 <= k <= N.to_nat rounds)%nat
  | EndFinalFailed st _ _ => st <> 1
  | EndSizeMismatch _ rep => uint_t_of rep <> digest_size d
  | EndSuccess _ rep => uint_t_of rep = digest_size d
  end.

End Hmac.

Arguments Done {E A} a w.
Arguments Fault {E A}.
Arguments EvLog {E} m.
Arguments EvCtxInit {E}.
Arguments EvHmacInit {E} key klen d.
Arguments EvHmacUpdate {E} data len.
Arguments EvHmacFinal {E} dst status written reported.
Arguments EvCtxCleanup {E}.
Arguments EvAlloc {E} n res.
Arguments EvFree {E} l.
Arguments World {E} heap trace.
Arguments heap {E} w.
Arguments trace {E} w.
Arguments is_log {E} ev.
Arguments is_ctx_init {E} ev.
Arguments is_ctx_cleanup {E} ev.
Arguments is_keying {E} ev.
Arguments is_update {E} ev.
Arguments is_final {E} ev.
Arguments is_crypto {E} ev.
Arguments only {E} f evs.
Arguments count {E} f evs.
Arguments open_contexts {E} evs.

(** What a caller sees of a finished call: the value and the trace. *)
Definition observe {E A} (o : outcome E A) : option (A * list (event E)) :=
  match o with
  | Done a w => Some (a, trace w)
  | Fault => None
  end.

(** ** A small instance of the outside world

    Used to run the code on concrete inputs.  Options: bit 0 is AVAILABLE,
    bit 1 is DESTINATION, bit 2 is TRACKED.  A digest handle is its output
    size; the size query answers -1 for [NULL], as OpenSSL's [EVP_MD_size]
    does.  The context collects the key and the bytes fed to it; finalize
    stores the first [size] bytes of what was collected (padded with zero
    bytes) and reports [size + bias].  The three status words and [bias] let
    a primitive fail or disagree with the size query. *)
Definition toy_final (bias : Z) (ctx : Z * list byte) : list byte * Z :=
  let n := Z.to_nat (fst ctx) in
  (take n (snd ctx ++ repeat x00 n), fst ctx + bias).

Definition toy_alloc (n : N) : option stringer_t :=
  if (n <=? 65536)%N
  then Some {| st_opts := 2; st_length := n; st_avail := n;
               st_data := repeat x00 (N.to_nat n) |}
  else None.

Definition Toy (init_status update_status final_status bias : Z) : Externals :=
  {| digest_t := Z;
     HMAC_CTX := Z * list byte;
     st_valid_avail := fun opts => Z.testbit opts 0;
     st_valid_destination := fun opts => Z.testbit opts 1;
     st_valid_tracked := fun opts => Z.testbit opts 2;
     EVP_MD_size_d := fun digest => match digest with Some n => n | None => -1 end;
     HMAC_CTX_init_d := (0, []);
     HMAC_Init_ex_d := fun _ k _ d => (init_status, (d, k));
     HMAC_Update_d := fun ctx data _ => (update_status, (fst ctx, snd ctx ++ data));
     HMAC_Final_d := fun ctx =>
       (final_status, fst (toy_final bias ctx), snd (toy_final bias ctx), ctx);
     st_alloc := toy_alloc |}.

(** All primitives succeed and agree. *)
Definition Toy_ok : Externals := Toy 1 1 1 0.

Definition heap_of (bs : list stringer_t) : gmap loc stringer_t :=
  list_to_map (zip (Pos.of_nat <$> seq 1 (length bs)) bs).

(** Three stringers: the input "ab" at 1, the key "k" at 2, and at 3 a
    writable, tracked, fixed 4-byte block that holds "????". *)
Definition heap3 : gmap loc stringer_t :=
  heap_of [ {| st_opts := 0; st_length := 2; st_avail := 0; st_data := [x61; x62] |};
            {| st_opts := 0; st_length := 1; st_avail := 0; st_data := [x6b] |};
            {| st_opts := 6; st_length := 4; st_avail := 0;
               st_data := [x3f; x3f; x3f; x3f] |} ].

Definition world3 (E : Externals) : world E := World heap3 [].

(** ** The named wrappers, lines 242-295

    [EVP_md4_d], ..., [EVP_ripemd160_d] are the dynamically loaded OpenSSL
    getters; each answers a digest handle, or [NULL].  They are parameters
    too, in a record of their own. *)
Record Digests (E : Externals) := {
  EVP_md4_d : option (digest_t E);
  EVP_md5_d : option (digest_t E);
  EVP_sha_d : option (digest_t E);
  EVP_sha1_d : option (digest_t E);
  EVP_sha224_d : option (digest_t E);
  EVP_sha256_d : option (digest_t E);
  EVP_sha384_d : option (digest_t E);
  EVP_sha512_d : option (digest_t E);
  EVP_ripemd160_d : option (digest_t E)
}.
Arguments EVP_md4_d {E} d.
Arguments EVP_md5_d {E} d.
Arguments EVP_sha_d {E} d.
Arguments EVP_sha1_d {E} d.
Arguments EVP_sha224_d {E} d.
Arguments EVP_sha256_d {E} d.
Arguments EVP_sha384_d {E} d.
Arguments EVP_sha512_d {E} d.
Arguments EVP_ripemd160_d {E} d.

Section Wrappers.

Context (E : Externals) (D : Digests E).

Definition hmac_md4 (s key output : ptr) : M E ptr :=
  hmac_digest E (EVP_md4_d D) s key output.

Definition hmac_md5 (s key output : ptr) : M E ptr :=
  hmac_digest E (EVP_md5_d D) s key output.

Definition hmac_sha (s key output : ptr) : M E ptr :=
  hmac_digest E (EVP_sha_d D) s key output.

Definition hmac_sha1 (s key output : ptr) : M E ptr :=
  hmac_digest E (EVP_sha1_d D) s key output.

Definition hmac_sha224 (s key output : ptr) : M E ptr :=
  hmac_digest E (EVP_sha224_d D) s key output.

Definition hmac_sha256 (s key output : ptr) : M E ptr :=
  hmac_digest E (EVP_sha256_d D) s key output.

Definition hmac_sha384 (s key output : ptr) : M E ptr :=
  hmac_digest E (EVP_sha384_d D) s key output.

Definition hmac_sha512 (s key output : ptr) : M E ptr :=
  hmac_digest E (EVP_sha512_d D) s key output.

Definition hmac_ripemd160 (s key output : ptr) : M E ptr :=
  hmac_digest E (EVP_ripemd160_d D) s key output.

Definition hmac_multi_sha512 (rounds : N) (s key output : ptr) : M E ptr :=
  hmac_multi_digest E rounds (EVP_sha512_d D) s key output.

End Wrappers.

(** ** What the primitive answers along a call

    The claims speak of the keying call, an update call or finalize failing.
    These are the answers of the primitive at the contexts the protocol
    reaches: the keying call on the fresh context, then the update calls one
    after the other, each on the context the one before left. *)
Section Answers.

Context (E : Externals).

(** The status of the keying call and the context it leaves. *)
Definition keying (d : digest_t E) (bk : stringer_t) : Z * HMAC_CTX E :=
  HMAC_Init_ex_d E (HMAC_CTX_init_d E)
    (st_data bk) (int_of_size_t (st_length bk)) d.

(** The context after [k] update calls on the whole of [bs]. *)
Fixpoint fed (k : nat) (ctx : HMAC_CTX E) (bs : stringer_t) : HMAC_CTX E :=
  match k with
  | O => ctx
  | S k' => fed k' (snd (HMAC_Update_d E ctx (st_data bs) (st_length bs))) bs
  end.

(** The status of the update call that comes after [k] others. *)
Definition update_status (ctx : HMAC_CTX E) (bs : stringer_t) (k : nat) : Z :=
  fst (HMAC_Update_d E (fed k ctx bs) (st_data bs) (st_length bs)).

(** Among [n] update calls, the first whose status is not 1, counted from
    0; [None] when all [n] answer 1. *)
Fixpoint first_failed (n : nat) (ctx : HMAC_CTX E) (bs : stringer_t)
  : option nat :=
  match n with
  | O => None
  | S n' =>
      if fst (HMAC_Update_d E ctx (st_data bs) (st_length bs)) =? 1
      then S <$> first_failed n'
                   (snd (HMAC_Update_d E ctx (st_data bs) (st_length bs))) bs
      else Some O
  end.

(** The end these answers lead a validated call to. *)
Definition protocol_end_of (rounds : N) (d : digest_t E)
    (bs bk : stringer_t) : protocol_end :=
  if negb (fst (keying d bk) =? 1) then EndInitFailed
  else
    let ctx0 := snd (keying d bk) in
    match first_failed (N.to_nat rounds) ctx0 bs with
    | Some j => EndUpdateFailed (S j)
    | None =>
        let '(st, wr, rep, _) := HMAC_Final_d E (fed (N.to_nat rounds) ctx0 bs) in
        if negb (st =? 1) then EndFinalFailed st wr rep
        else if negb (uint_t_of rep =? digest_size E d) then EndSizeMismatch wr rep
        else EndSuccess wr rep
    end.

(** The heap and the output the round engine works on: the caller's, or
    the heap with the stringer the allocator gave at the first free
    location; [None] when the allocator answered [NULL]. *)
Definition engine_view (w : world E) (digest : option (digest_t E))
    (output : ptr) : option (gmap loc stringer_t * loc) :=
  match output with
  | Some lo => Some (heap w, lo)
  | None =>
      match st_alloc E (size_t_of (int_t_of (EVP_MD_size_d E digest))) with
      | Some b0 =>
          Some (<[fresh (dom (heap w)) := b0]> (heap w), fresh (dom (heap w)))
      | None => None
      end
  end.

End Answers.

(** Reading a trace for the allocator's calls. *)
Definition is_alloc {E} (ev : event E) : bool :=
  match ev with EvAlloc _ _ => true | _ => false end.

Definition is_free {E} (ev : event E) : bool :=
  match ev with EvFree _ => true | _ => false end.

(** The handles of the small instance: every digest by its output size in
    bytes, and SHA-512 as given ([None] when the symbol is missing). *)
Definition Toy_digests (sha512 : option Z) : Digests Toy_ok :=
  {| EVP_md4_d := Some (16 : digest_t Toy_ok);
     EVP_md5_d := Some 16;
     EVP_sha_d := Some 20;
     EVP_sha1_d := Some 20;
     EVP_sha224_d := Some 28;
     EVP_sha256_d := Some 32;
     EVP_sha384_d := Some 48;
     EVP_sha512_d := sha512;
     EVP_ripemd160_d := Some 20 |}.

(** The heap of [heap3] with a fourth stringer: at 4 a writable, tracked
    block of 64 bytes with AVAILABLE set, of length 0. *)
Definition heap4 : gmap loc stringer_t :=
  <[4%positive := {| st_opts := 7; st_length := 0; st_avail := 64;
                     st_data := repeat x00 64 |}]> heap3.

(** * Properties *)

(** Case analysis on membership in a list that is written out. *)
Ltac in_cases H :=
  repeat (apply elem_of_cons in H; destruct H as [H|H]; [try discriminate H|]);
  try (by apply elem_of_nil in H).

Lemma int_t_of_range z : - 2 ^ 31 <= int_t_of z < 2 ^ 31.
Proof. unfold int_t_of. pose proof (Z.mod_pos_bound (z + 2 ^ 31) (2 ^ 32)). lia. Qed.

Lemma uint_t_of_small z : 0 <= z < 2 ^ 32 -> uint_t_of z = z.
Proof. intros H. unfold uint_t_of. apply Z.mod_small. lia. Qed.

Lemma size_t_of_small z : 0 <= z < 2 ^ 64 -> Z.of_N (size_t_of z) = z.
Proof. intros H. unfold size_t_of. rewrite Z.mod_small by lia. lia. Qed.

Section HmacProofs.

Context (E : Externals).

Implicit Types (w : world E) (h : gmap loc stringer_t) (l : loc) (b : stringer_t).

(** ** Running the monad *)

Lemma bind_done {A B} (m : M E A) (k : A -> M E B) w a w' :
  m w = Done a w' -> bind E m k w = k a w'.
Proof. intros H. unfold bind. by rewrite H. Qed.

Lemma load_done w l b : heap w !! l = Some b -> load E (Some l) w = Done b w.
Proof. intros H. unfold load. by rewrite H. Qed.

Lemma st_length_get_done w l b :
  heap w !! l = Some b -> st_length_get E (Some l) w = Done (st_length b) w.
Proof. intros H. unfold st_length_get. by rewrite (bind_done _ _ _ _ _ (load_done _ _ _ H)). Qed.

Lemma st_avail_get_done w l b :
  heap w !! l = Some b -> st_avail_get E (Some l) w = Done (st_avail b) w.
Proof. intros H. unfold st_avail_get. by rewrite (bind_done _ _ _ _ _ (load_done _ _ _ H)). Qed.

Lemma st_data_get_done w l b :
  heap w !! l = Some b -> st_data_get E (Some l) w = Done (st_data b) w.
Proof. intros H. unfold st_data_get. by rewrite (bind_done _ _ _ _ _ (load_done _ _ _ H)). Qed.

Lemma st_empty_done w p :
  valid_ptr (heap w) p = true ->
  st_empty E p w = Done (negb (present_nonempty (heap w) p)) w.
Proof.
  destruct p as [l|]; simpl; [|done].
  destruct (heap w !! l) as [b|] eqn:Hl; [|done]. intros _.
  rewrite (bind_done _ _ _ _ _ (load_done _ _ _ Hl)).
  by rewrite negb_involutive.
Qed.

Lemma buffer_size_get_done w l b :
  heap w !! l = Some b ->
  buffer_size_get E (Some l) w = Done (effective_size E b) w.
Proof.
  intros H. unfold buffer_size_get, effective_size.
  rewrite (bind_done _ _ _ _ _ (load_done _ _ _ H)).
  destruct (st_valid_avail E (st_opts b)).
  - by apply st_avail_get_done.
  - by apply st_length_get_done.
Qed.

Lemma emit_done {B} (ev : event E) (k : unit -> M E B) w :
  bind E (emit E ev) k w = k tt {| heap := heap w; trace := trace w ++ [ev] |}.
Proof. reflexivity. Qed.

(** ** The update loop *)

(** The loop makes [k] calls, each on the whole of [s]; it makes all [n] of
    them unless one fails, and then that one was the last. *)
Lemma update_rounds_run n : forall ctx l b w,
  heap w !! l = Some b ->
  exists (k : nat) (ok : bool) ctx',
    update_rounds E n ctx (Some l) w =
      Done (ok, ctx')
           {| heap := heap w;
              trace := trace w
                       ++ repeat (EvHmacUpdate (st_data b) (st_length b)) k
                       ++ (if ok then [] else [EvLog LogUpdateFailed]) |}
    /\ (if ok then k = n else (1 <= k <= n)%nat).
Proof.
  induction n as [|n IH]; intros ctx l b w Hl.
  - exists 0%nat, true, ctx. split; [|done].
    simpl. unfold ret. destruct w; simpl. by rewrite app_nil_r.
  - simpl.
    rewrite (bind_done _ _ _ _ _ (st_data_get_done _ _ _ Hl)).
    rewrite (bind_done _ _ _ _ _ (st_length_get_done _ _ _ Hl)).
    rewrite emit_done.
    destruct (HMAC_Update_d E ctx (st_data b) (st_length b)) as [r ctx1].
    destruct (r =? 1); simpl.
    + set (w1 := {| heap := heap w; trace := trace w ++ [EvHmacUpdate (st_data b) (st_length b)] |}).
      destruct (IH ctx1 l b w1 Hl) as (k & ok & ctx' & Hrun & Hk).
      exists (S k), ok, ctx'. split.
      * rewrite Hrun. subst w1. simpl. by rewrite <- app_assoc.
      * destruct ok; lia.
    + exists 1%nat, false, ctx1. split; [|lia].
      unfold log. rewrite emit_done. unfold ret. simpl. by rewrite <- app_assoc.
Qed.

Lemma st_length_set_done w l b n :
  heap w !! l = Some b ->
  st_length_set E l n w
  = Done tt {| heap := <[l := set_length b n]> (heap w); trace := trace w |}.
Proof.
  intros H. unfold st_length_set.
  rewrite (bind_done _ _ _ _ _ (load_done _ _ _ H)).
  unfold store. by rewrite H.
Qed.

Lemma hmac_final_done ctx w l b r wr rep ctx' :
  heap w !! l = Some b ->
  HMAC_Final_d E ctx = (r, wr, rep, ctx') ->
  hmac_final E ctx l w
  = Done (r, uint_t_of rep)
         {| heap := <[l := set_data b (write_at0 wr (st_data b))]> (heap w);
            trace := trace w ++ [EvHmacFinal l r wr rep] |}.
Proof.
  intros H HF. unfold hmac_final.
  rewrite (bind_done _ _ _ _ _ (load_done _ _ _ H)), HF.
  unfold bind, store. rewrite H. reflexivity.
Qed.

(** ** The validations *)

Lemma digest_size_fits d :
  1 <= digest_size E d ->
  uint_t_of (digest_size E d) = digest_size E d
  /\ Z.of_N (size_t_of (digest_size E d)) = digest_size E d.
Proof.
  intros H. pose proof (int_t_of_range (EVP_MD_size_d E (Some d))) as R.
  fold (digest_size E d) in R. split.
  - apply uint_t_of_small. lia.
  - apply size_t_of_small. lia.
Qed.

Lemma present_nonempty_intro h l b :
  h !! l = Some b -> st_length b <> 0%N -> present_nonempty h (Some l) = true.
Proof.
  intros H Hb. unfold present_nonempty. rewrite H.
  by destruct (N.eqb_spec (st_length b) 0).
Qed.

Lemma valid_ptr_intro h l b : h !! l = Some b -> valid_ptr h (Some l) = true.
Proof. intros H. unfold valid_ptr. by rewrite H. Qed.

(** What [first_violated] = [None] says. *)
Lemma first_violated_None h rounds digest s key output :
  first_violated E h rounds digest s key output = None ->
  (1 <= rounds)%N
  /\ exists d ls bs lk bk lo bo,
       digest = Some d /\ s = Some ls /\ key = Some lk /\ output = Some lo
       /\ 1 <= digest_size E d
       /\ h !! ls = Some bs /\ st_length bs <> 0%N
       /\ h !! lk = Some bk /\ st_length bk <> 0%N
       /\ h !! lo = Some bo /\ writable E bo = true
       /\ digest_size E d <= Z.of_N (effective_size E bo).
Proof.
  unfold first_violated, digest_resolves, present_nonempty, output_fits.
  destruct (N.leb_spec 1 rounds) as [Hr|]; [|done]; simpl.
  destruct digest as [d|]; [|done].
  destruct (Z.leb_spec 1 (digest_size E d)) as [Hd|]; [|done]; simpl.
  destruct s as [ls|]; [|done].
  destruct (h !! ls) as [bs|] eqn:Hs; [|done].
  destruct (N.eqb_spec (st_length bs) 0) as [|Hbs]; [done|]; simpl.
  destruct key as [lk|]; [|done].
  destruct (h !! lk) as [bk|] eqn:Hk; [|done].
  destruct (N.eqb_spec (st_length bk) 0) as [|Hbk]; [done|]; simpl.
  destruct output as [lo|]; [|done].
  destruct (h !! lo) as [bo|] eqn:Ho; [|done].
  destruct (writable E bo) eqn:Hw; [|done].
  destruct (Z.leb_spec (digest_size E d) (Z.of_N (effective_size E bo))) as [Hsz|]; [|done].
  intros _. split; [done|].
  exists d, ls, bs, lk, bk, lo, bo. done.
Qed.

(** The run of a call that passes the five validations: the context is
    opened and keyed, the updates run, and the call ends in one of the five
    ways of [protocol_end]. *)
Lemma nonnull_protocol w rounds d ls bs lk bk lo bo :
  (1 <= rounds)%N -> 1 <= digest_size E d ->
  heap w !! ls = Some bs -> st_length bs <> 0%N ->
  heap w !! lk = Some bk -> st_length bk <> 0%N ->
  heap w !! lo = Some bo -> writable E bo = true ->
  digest_size E d <= Z.of_N (effective_size E bo) ->
  exists e,
    end_ok E rounds d e
    /\ hmac_multi_digest_nonnull_output E rounds (Some d) (Some ls) (Some lk) (Some lo) w
       = Done (end_ret lo e)
              {| heap := <[lo := end_output E d bo e]> (heap w);
                 trace := trace w ++ end_events E rounds d bs bk lo e |}.
Proof.
  intros Hr Hd Hs Hbs Hk Hbk Ho Hw Hsz.
  destruct (digest_size_fits d Hd) as [Hu Hz].
  unfold hmac_multi_digest_nonnull_output.
  fold (digest_size E d).
  destruct (N.ltb_spec rounds 1) as [|_]; [lia|].
  destruct (Z.ltb_spec (digest_size E d) 1) as [|_]; [lia|].
  rewrite (bind_done _ _ _ _ _ (st_empty_done w _ (valid_ptr_intro _ _ _ Hs))).
  rewrite (present_nonempty_intro _ _ _ Hs Hbs). cbn [negb].
  rewrite (bind_done _ _ _ _ _ (st_empty_done w _ (valid_ptr_intro _ _ _ Hk))).
  rewrite (present_nonempty_intro _ _ _ Hk Hbk). cbn [negb].
  rewrite (bind_done _ _ _ _ _ (load_done _ _ _ Ho)).
  unfold writable in Hw. rewrite Hw. cbn [negb].
  rewrite (bind_done _ _ _ _ _ (buffer_size_get_done _ _ _ Ho)).
  destruct (N.ltb_spec (effective_size E bo) (size_t_of (digest_size E d))) as [|_]; [lia|].
  rewrite emit_done.
  set (w1 := {| heap := heap w; trace := trace w ++ [EvCtxInit] |}).
  assert (Hk1 : heap w1 !! lk = Some bk) by done.
  rewrite (bind_done _ _ _ _ _ (st_data_get_done _ _ _ Hk1)).
  rewrite (bind_done _ _ _ _ _ (st_length_get_done _ _ _ Hk1)).
  rewrite emit_done.
  cbv zeta.
  destruct (HMAC_Init_ex_d E (HMAC_CTX_init_d E) (st_data bk)
              (int_of_size_t (st_length bk)) d) as [r ctx].
  destruct (Z.eqb_spec r 1) as [->|Hr1]; cbn [negb].
  2:{ exists EndInitFailed. split; [done|].
      unfold log, cleanup_ctx, error, ret. rewrite !emit_done. simpl.
      rewrite insert_id by done. by rewrite <- !app_assoc. }
  set (w2 := {| heap := heap w1; trace := trace w1 ++ [EvHmacInit (st_data bk) (int_of_size_t (st_length bk)) d] |}).
  assert (Hs2 : heap w2 !! ls = Some bs) by done.
  destruct (update_rounds_run (N.to_nat rounds) ctx ls bs w2 Hs2)
    as (k & ok & ctx' & Hrun & Hkn).
  rewrite (bind_done _ _ _ _ _ Hrun). clear Hrun.
  destruct ok; cbn [negb].
  2:{ exists (EndUpdateFailed k). split; [done|].
      unfold cleanup_ctx, error, ret. rewrite !emit_done. simpl.
      rewrite insert_id by done. by rewrite <- !app_assoc. }
  subst k.
  set (w3 := {| heap := heap w2; trace := _ |}).
  assert (Ho3 : heap w3 !! lo = Some bo) by done.
  destruct (HMAC_Final_d E ctx') as [[[r wr] rep] ctx''] eqn:HF.
  rewrite (bind_done _ _ _ _ _ (hmac_final_done ctx' _ _ _ _ _ _ _ Ho3 HF)).
  destruct (Z.eqb_spec r 1) as [->|Hr1]; cbn [negb].
  2:{ exists (EndFinalFailed r wr rep). split; [done|].
      unfold log, cleanup_ctx, error, ret. rewrite !emit_done. simpl.
      by rewrite app_nil_r, <- !app_assoc. }
  rewrite Hu.
  destruct (Z.eqb_spec (digest_size E d) (uint_t_of rep)) as [Heq|Hne]; cbn [negb].
  2:{ exists (EndSizeMismatch wr rep). split; [simpl; congruence|].
      unfold log, cleanup_ctx, error, ret. rewrite !emit_done. simpl.
      by rewrite app_nil_r, <- !app_assoc. }
  exists (EndSuccess wr rep). split; [simpl; congruence|].
  unfold end_output, tracked.
  destruct (st_valid_tracked E (st_opts bo)).
  - erewrite bind_done; last first.
    { apply st_length_set_done. simpl. apply lookup_insert_eq. }
    rewrite emit_done. unfold ret. simpl.
    by rewrite insert_insert_eq, app_nil_r, <- !app_assoc.
  - unfold ret at 1. unfold bind at 1. rewrite emit_done. unfold ret. simpl.
    by rewrite app_nil_r, <- !app_assoc.
Qed.

(** A call that violates a precondition logs the message of the first one
    violated and returns [NULL]; nothing else happens. *)
Lemma nonnull_rejected w rounds digest s key output p :
  valid_ptr (heap w) s = true ->
  valid_ptr (heap w) key = true ->
  valid_ptr (heap w) output = true ->
  first_violated E (heap w) rounds digest s key output = Some p ->
  exists m,
    precondition_of m = Some p
    /\ hmac_multi_digest_nonnull_output E rounds digest s key output w
       = Done None {| heap := heap w; trace := trace w ++ [EvLog m] |}.
Proof.
  intros Vs Vk Vo.
  unfold first_violated, hmac_multi_digest_nonnull_output.
  rewrite N.ltb_antisym.
  destruct (1 <=? rounds)%N; cbn [negb].
  2:{ intros [= <-]. by exists LogRounds. }
  destruct digest as [d|]; cbn [digest_resolves negb].
  2:{ intros [= <-]. by exists LogDigestNull. }
  fold (digest_size E d). rewrite Z.ltb_antisym.
  destruct (Z.leb_spec 1 (digest_size E d)) as [Hd|]; cbn [negb].
  2:{ intros [= <-]. by exists LogDigestSize. }
  rewrite (bind_done _ _ _ _ _ (st_empty_done w s Vs)).
  destruct (present_nonempty (heap w) s); cbn [negb].
  2:{ intros [= <-]. by exists LogInputEmpty. }
  rewrite (bind_done _ _ _ _ _ (st_empty_done w key Vk)).
  destruct (present_nonempty (heap w) key); cbn [negb].
  2:{ intros [= <-]. by exists LogKeyEmpty. }
  destruct output as [lo|]; cbn [output_fits negb].
  2:{ intros [= <-]. by exists LogOutputNull. }
  simpl in Vo. destruct (heap w !! lo) as [bo|] eqn:Ho; [|done].
  rewrite (bind_done _ _ _ _ _ (load_done _ _ _ Ho)).
  unfold writable. destruct (st_valid_destination E (st_opts bo)); cbn [negb andb].
  2:{ intros [= <-]. by exists LogNotWritable. }
  rewrite (bind_done _ _ _ _ _ (buffer_size_get_done _ _ _ Ho)).
  destruct (digest_size_fits d Hd) as [_ Hz].
  destruct (Z.leb_spec (digest_size E d) (Z.of_N (effective_size E bo))); [done|].
  destruct (N.ltb_spec (effective_size E bo) (size_t_of (digest_size E d))); [|lia].
  intros [= <-]. by exists LogTooSmall.
Qed.

(** Every call on pointers a caller may pass ends in one of these two ways. *)
Lemma nonnull_run w rounds digest s key output :
  valid_ptr (heap w) s = true ->
  valid_ptr (heap w) key = true ->
  valid_ptr (heap w) output = true ->
  (exists p m,
      first_violated E (heap w) rounds digest s key output = Some p
      /\ precondition_of m = Some p
      /\ hmac_multi_digest_nonnull_output E rounds digest s key output w
         = Done None {| heap := heap w; trace := trace w ++ [EvLog m] |})
  \/ (exists d ls bs lk bk lo bo e,
        first_violated E (heap w) rounds digest s key output = None
        /\ digest = Some d /\ s = Some ls /\ key = Some lk /\ output = Some lo
        /\ heap w !! ls = Some bs /\ heap w !! lk = Some bk /\ heap w !! lo = Some bo
        /\ end_ok E rounds d e
        /\ hmac_multi_digest_nonnull_output E rounds digest s key output w
           = Done (end_ret lo e)
                  {| heap := <[lo := end_output E d bo e]> (heap w);
                     trace := trace w ++ end_events E rounds d bs bk lo e |}).
Proof.
  intros Vs Vk Vo.
  destruct (first_violated E (heap w) rounds digest s key output) as [p|] eqn:Hv.
  - left. destruct (nonnull_rejected _ _ _ _ _ _ _ Vs Vk Vo Hv) as (m & Hm & Hrun).
    by exists p, m.
  - right. destruct (first_violated_None _ _ _ _ _ _ Hv)
      as (Hr & d & ls & bs & lk & bk & lo & bo & -> & -> & -> & -> & Hd & Hs & Hbs & Hk & Hbk & Ho & Hw & Hsz).
    destruct (nonnull_protocol w rounds d ls bs lk bk lo bo) as (e & He & Hrun); try done.
    exists d, ls, bs, lk, bk, lo, bo, e. done.
Qed.

(** ** Reading the trace of the protocol *)

Lemma only_app f (l1 l2 : list (event E)) : only f (l1 ++ l2) = only f l1 ++ only f l2.
Proof. apply List.filter_app. Qed.

Lemma only_repeat_true f (ev : event E) n : f ev = true -> only f (repeat ev n) = repeat ev n.
Proof. intros H. induction n as [|n IH]; simpl; [done|]. by rewrite H, IH. Qed.

Lemma only_repeat_false f (ev : event E) n : f ev = false -> only f (repeat ev n) = [].
Proof. intros H. induction n as [|n IH]; simpl; [done|]. by rewrite H, IH. Qed.

Lemma only_end_events f rounds d bs bk lo e :
  only f (end_events E rounds d bs bk lo e)
  = only f [EvCtxInit; EvHmacInit (st_data bk) (int_of_size_t (st_length bk)) d]
    ++ only f (repeat (EvHmacUpdate (st_data bs) (st_length bs)) (end_updates rounds e))
    ++ only f (end_tail E lo e).
Proof. unfold end_events. by rewrite !only_app. Qed.

Lemma count_end_events f rounds d bs bk lo e :
  count f (end_events E rounds d bs bk lo e)
  = (count f [EvCtxInit; EvHmacInit (st_data bk) (int_of_size_t (st_length bk)) d]
     + count f (repeat (EvHmacUpdate (st_data bs) (st_length bs)) (end_updates rounds e))
     + count f (end_tail E lo e))%nat.
Proof. unfold count. rewrite only_end_events, !length_app. lia. Qed.

Lemma count_repeat_false f (ev : event E) n : f ev = false -> count f (repeat ev n) = 0%nat.
Proof. intros H. unfold count. by rewrite only_repeat_false. Qed.

Lemma end_updates_le rounds d e :
  end_ok E rounds d e -> (end_updates rounds e <= N.to_nat rounds)%nat.
Proof. destruct e; simpl; lia. Qed.

(** Membership in the trace of a protocol run, by its three parts. *)
Lemma elem_of_end_events ev rounds d bs bk lo e :
  ev ∈ end_events E rounds d bs bk lo e ->
  ev = EvCtxInit \/ ev = EvHmacInit (st_data bk) (int_of_size_t (st_length bk)) d
  \/ ev = EvHmacUpdate (st_data bs) (st_length bs)
  \/ ev ∈ end_tail E lo e.
Proof.
  unfold end_events. rewrite !elem_of_app, !elem_of_cons, elem_of_nil.
  intros [[|[|[]]]|[H|]]; auto.
  apply list_elem_of_In, repeat_spec in H. auto.
Qed.

(** A protocol run that logs a message is a failed one, and conversely. *)
Lemma end_events_log rounds d bs bk lo e :
  (exists m, EvLog m ∈ end_events E rounds d bs bk lo e) <-> end_ret lo e = None.
Proof.
  split.
  - intros [m Hm]. apply elem_of_end_events in Hm.
    destruct Hm as [|[|[|Hm]]]; try done.
    destruct e; try done. simpl in Hm. in_cases Hm.
  - intros Hret. unfold end_events.
    destruct e as [|k|st wr rep|wr rep|wr rep]; try done; simpl end_tail;
      eexists; do 2 (apply elem_of_app; right);
      rewrite !elem_of_cons; eauto.
Qed.

(** The message a protocol run logs is the one of its end. *)
Lemma end_events_log_kind m rounds d bs bk lo e :
  EvLog m ∈ end_events E rounds d bs bk lo e ->
  match e with
  | EndInitFailed => m = LogInitFailed
  | EndUpdateFailed _ => m = LogUpdateFailed
  | EndFinalFailed _ _ _ => m = LogFinalFailed
  | EndSizeMismatch _ _ => m = LogSizeMismatch
  | EndSuccess _ _ => False
  end.
Proof.
  intros Hm. apply elem_of_end_events in Hm.
  destruct Hm as [|[|[|Hm]]]; try done.
  destruct e; simpl in Hm; in_cases Hm; by injection Hm as ->.
Qed.

(** The finalize call of a protocol run, if there is one, is the one its end
    names. *)
Lemma end_events_final rounds d bs bk lo e dst st wr rep :
  EvHmacFinal dst st wr rep ∈ end_events E rounds d bs bk lo e ->
  dst = lo
  /\ (e = EndFinalFailed st wr rep
      \/ (st = 1 /\ (e = EndSizeMismatch wr rep \/ e = EndSuccess wr rep))).
Proof.
  intros Hm. apply elem_of_end_events in Hm.
  destruct Hm as [|[|[|Hm]]]; try done.
  destruct e; simpl in Hm; in_cases Hm; injection Hm as -> -> -> ->; auto.
Qed.

(** The tail of a protocol run ends with the release of the context, and
    neither opens nor releases one before that. *)
Lemma end_tail_cleanup lo e :
  exists t, end_tail E lo e = t ++ [EvCtxCleanup]
            /\ count is_ctx_init t = 0%nat /\ count is_ctx_cleanup t = 0%nat.
Proof.
  destruct e as [|k|st wr rep|wr rep|wr rep]; simpl.
  - by exists [EvLog LogInitFailed].
  - by exists [EvLog LogUpdateFailed].
  - by exists [EvHmacFinal lo st wr rep; EvLog LogFinalFailed].
  - by exists [EvHmacFinal lo 1 wr rep; EvLog LogSizeMismatch].
  - by exists [EvHmacFinal lo 1 wr rep].
Qed.

Lemma count_app f (l1 l2 : list (event E)) :
  count f (l1 ++ l2) = (count f l1 + count f l2)%nat.
Proof. unfold count. by rewrite only_app, length_app. Qed.

(** What every call on a present output has in common: it returns [NULL] or
    the output, it returns [NULL] exactly when it logged a message, it
    touches the heap at the output only, and all it does outside is log and
    call the primitive. *)
Lemma nonnull_summary w rounds digest s key lo bo :
  valid_ptr (heap w) s = true ->
  valid_ptr (heap w) key = true ->
  heap w !! lo = Some bo ->
  exists r b1 inner,
    hmac_multi_digest_nonnull_output E rounds digest s key (Some lo) w
    = Done r {| heap := <[lo := b1]> (heap w); trace := trace w ++ inner |}
    /\ (r = None \/ r = Some lo)
    /\ ((exists m, EvLog m ∈ inner) <-> r = None)
    /\ (forall ev, ev ∈ inner -> is_log ev = true \/ is_crypto ev = true).
Proof.
  intros Vs Vk Ho.
  destruct (nonnull_run w rounds digest s key (Some lo) Vs Vk (valid_ptr_intro _ _ _ Ho))
    as [(p & m & Hv & Hm & Hrun) | (d & ls & bs & lk & bk & lo' & bo1 & e & Hv & -> & -> & -> & [= <-] & Hs & Hk & Ho' & He & Hrun)].
  - exists None, bo, [EvLog m]. rewrite insert_id by done.
    split; [done|]. split; [by left|]. split.
    + split; [done|]. intros _. exists m. apply elem_of_cons. by left.
    + intros ev Hev. in_cases Hev. subst ev. by left.
  - eexists _, _, _. split; [exact Hrun|].
    split; [destruct e; simpl; auto|].
    split; [apply end_events_log|].
    intros ev Hev. apply elem_of_end_events in Hev.
    destruct Hev as [->|[->|[->|Hev]]]; [by right..|].
    destruct e; simpl in Hev; in_cases Hev; subst ev; auto.
Qed.

Lemma valid_ptr_insert h l b p :
  h !! l = None -> valid_ptr h p = true -> valid_ptr (<[l := b]> h) p = true.
Proof.
  intros Hl. destruct p as [l'|]; simpl; [|done].
  destruct (decide (l = l')) as [->|Hne].
  - by rewrite Hl.
  - by rewrite lookup_insert_ne.
Qed.

Lemma fresh_loc_free h : h !! fresh (dom h) = None.
Proof. apply not_elem_of_dom, is_fresh. Qed.

(** The auto-allocation path: the allocator is asked first; when it answers
    [NULL] the call logs and returns [NULL]; otherwise the round engine runs
    on the fresh stringer, which is freed when the engine returns [NULL] and
    returned when it does not. *)
Lemma null_output_run w rounds digest s key :
  valid_ptr (heap w) s = true ->
  valid_ptr (heap w) key = true ->
  let n := size_t_of (int_t_of (EVP_MD_size_d E digest)) in
  let l := fresh (dom (heap w)) in
  match st_alloc E n with
  | None =>
      hmac_multi_digest_null_output E rounds digest s key w
      = Done None {| heap := heap w;
                     trace := trace w ++ [EvAlloc n None; EvLog LogAllocFailed] |}
  | Some b0 =>
      exists r b1 inner,
        hmac_multi_digest_nonnull_output E rounds digest s key (Some l)
          {| heap := <[l := b0]> (heap w); trace := trace w ++ [EvAlloc n (Some l)] |}
        = Done r {| heap := <[l := b1]> (heap w);
                    trace := trace w ++ [EvAlloc n (Some l)] ++ inner |}
        /\ ((exists m, EvLog m ∈ inner) <-> r = None)
        /\ (forall ev, ev ∈ inner -> is_log ev = true \/ is_crypto ev = true)
        /\ ((r = None
             /\ hmac_multi_digest_null_output E rounds digest s key w
                = Done None {| heap := heap w;
                               trace := trace w ++ [EvAlloc n (Some l)] ++ inner ++ [EvFree l] |})
            \/ (r = Some l
                /\ hmac_multi_digest_null_output E rounds digest s key w
                   = Done (Some l) {| heap := <[l := b1]> (heap w);
                                      trace := trace w ++ [EvAlloc n (Some l)] ++ inner |}))
  end.
Proof.
  intros Vs Vk n l.
  pose proof (fresh_loc_free (heap w)) as Hl. fold l in Hl.
  unfold hmac_multi_digest_null_output. fold n.
  assert (Halloc : st_alloc_at E n w
                   = match st_alloc E n with
                     | None => Done None {| heap := heap w; trace := trace w ++ [EvAlloc n None] |}
                     | Some b =>
                         Done (Some l) {| heap := <[l := b]> (heap w);
                                          trace := trace w ++ [EvAlloc n (Some l)] |}
                     end) by reflexivity.
  destruct (st_alloc E n) as [b0|]; rewrite (bind_done _ _ _ _ _ Halloc).
  2:{ unfold log, error, ret. rewrite emit_done. simpl. by rewrite <- app_assoc. }
  set (w0 := {| heap := <[l := b0]> (heap w); trace := trace w ++ [EvAlloc n (Some l)] |}).
  destruct (nonnull_summary w0 rounds digest s key l b0) as (r & b1 & inner & Hrun & Hr & Hlog & Hevs).
  { by apply valid_ptr_insert. }
  { by apply valid_ptr_insert. }
  { apply lookup_insert_eq. }
  simpl in Hrun. rewrite insert_insert_eq, <- app_assoc in Hrun.
  exists r, b1, inner. split; [exact Hrun|]. split; [done|]. split; [done|].
  rewrite (bind_done _ _ _ _ _ Hrun).
  destruct Hr as [-> | ->]; [left | right]; (split; [done|]).
  - unfold st_free, bind, error, ret. simpl. rewrite lookup_insert_eq. simpl.
    rewrite delete_insert_id by done. by rewrite <- !app_assoc.
  - done.
Qed.

(** ** The answers of the primitive and the run *)

Lemma update_status_S ctx bs k :
  update_status E ctx bs (S k)
  = update_status E (snd (HMAC_Update_d E ctx (st_data bs) (st_length bs))) bs k.
Proof. reflexivity. Qed.

Lemma first_failed_None n : forall ctx bs,
  first_failed E n ctx bs = None
  <-> (forall k, (k < n)%nat -> update_status E ctx bs k = 1).
Proof.
  induction n as [|n IH]; intros ctx bs; simpl.
  - split; [intros _ k Hk; lia|done].
  - destruct (Z.eqb_spec (fst (HMAC_Update_d E ctx (st_data bs) (st_length bs))) 1) as [H1|H1].
    + rewrite fmap_None, IH. split.
      * intros H [|k] Hk; [exact H1|]. rewrite update_status_S. apply H. lia.
      * intros H k Hk. rewrite <- update_status_S. apply H. lia.
    + split; [done|]. intros H. destruct H1. apply (H 0%nat). lia.
Qed.

Lemma first_failed_Some n : forall ctx bs j,
  first_failed E n ctx bs = Some j
  <-> ((j < n)%nat
       /\ (forall k, (k < j)%nat -> update_status E ctx bs k = 1)
       /\ update_status E ctx bs j <> 1).
Proof.
  induction n as [|n IH]; intros ctx bs j; simpl.
  - split; [done|]. intros [H _]. lia.
  - destruct (Z.eqb_spec (fst (HMAC_Update_d E ctx (st_data bs) (st_length bs))) 1) as [H1|H1].
    + rewrite fmap_Some. split.
      * intros (j' & Hj' & ->). apply IH in Hj'. destruct Hj' as (Hlt & Hok & Hbad).
        split; [lia|]. split; [|by rewrite update_status_S].
        intros [|k] Hk; [exact H1|]. rewrite update_status_S. apply Hok. lia.
      * intros (Hlt & Hok & Hbad). destruct j as [|j]; [done|].
        exists j. split; [|done]. apply IH. split; [lia|].
        split; [|by rewrite <- update_status_S].
        intros k Hk. rewrite <- update_status_S. apply Hok. lia.
    + split.
      * intros [= <-]. split; [lia|]. split; [intros k Hk; lia|done].
      * intros (Hlt & Hok & Hbad). destruct j as [|j]; [done|].
        destruct H1. apply (Hok 0%nat). lia.
Qed.

(** The loop, by the answers of the primitive. *)
Lemma update_rounds_exact n : forall ctx l b w,
  heap w !! l = Some b ->
  update_rounds E n ctx (Some l) w
  = match first_failed E n ctx b with
    | None =>
        Done (true, fed E n ctx b)
             {| heap := heap w;
                trace := trace w
                         ++ repeat (EvHmacUpdate (st_data b) (st_length b)) n |}
    | Some j =>
        Done (false, fed E (S j) ctx b)
             {| heap := heap w;
                trace := trace w
                         ++ repeat (EvHmacUpdate (st_data b) (st_length b)) (S j)
                         ++ [EvLog LogUpdateFailed] |}
    end.
Proof.
  induction n as [|n IH]; intros ctx l b w Hl.
  - simpl. unfold ret. destruct w; simpl. by rewrite app_nil_r.
  - cbn [update_rounds first_failed].
    rewrite (bind_done _ _ _ _ _ (st_data_get_done _ _ _ Hl)).
    rewrite (bind_done _ _ _ _ _ (st_length_get_done _ _ _ Hl)).
    rewrite emit_done.
    destruct (HMAC_Update_d E ctx (st_data b) (st_length b)) as [r ctx1] eqn:Hu.
    cbn [fst snd].
    destruct (r =? 1); cbn [negb].
    + set (w1 := {| heap := heap w; trace := _ |}).
      rewrite (IH ctx1 l b w1 Hl).
      destruct (first_failed E n ctx1 b) as [j|]; cbn [fmap option_fmap option_map];
        subst w1; cbn [heap trace fed]; rewrite Hu; cbn [snd];
        by rewrite <- app_assoc.
    + unfold log. rewrite emit_done. unfold ret. cbn [heap trace fed].
      rewrite Hu. cbn [snd]. by rewrite <- app_assoc.
Qed.

(** The run of a validated call, by the answers of the primitive. *)
Lemma nonnull_protocol_exact w rounds d ls bs lk bk lo bo :
  (1 <= rounds)%N -> 1 <= digest_size E d ->
  heap w !! ls = Some bs -> st_length bs <> 0%N ->
  heap w !! lk = Some bk -> st_length bk <> 0%N ->
  heap w !! lo = Some bo -> writable E bo = true ->
  digest_size E d <= Z.of_N (effective_size E bo) ->
  hmac_multi_digest_nonnull_output E rounds (Some d) (Some ls) (Some lk) (Some lo) w
  = Done (end_ret lo (protocol_end_of E rounds d bs bk))
         {| heap := <[lo := end_output E d bo (protocol_end_of E rounds d bs bk)]> (heap w);
            trace := trace w
                     ++ end_events E rounds d bs bk lo (protocol_end_of E rounds d bs bk) |}.
Proof.
  intros Hr Hd Hs Hbs Hk Hbk Ho Hw Hsz.
  destruct (digest_size_fits d Hd) as [Hu Hz].
  unfold hmac_multi_digest_nonnull_output, protocol_end_of, keying.
  fold (digest_size E d).
  destruct (N.ltb_spec rounds 1) as [|_]; [lia|].
  destruct (Z.ltb_spec (digest_size E d) 1) as [|_]; [lia|].
  rewrite (bind_done _ _ _ _ _ (st_empty_done w _ (valid_ptr_intro _ _ _ Hs))).
  rewrite (present_nonempty_intro _ _ _ Hs Hbs). cbn [negb].
  rewrite (bind_done _ _ _ _ _ (st_empty_done w _ (valid_ptr_intro _ _ _ Hk))).
  rewrite (present_nonempty_intro _ _ _ Hk Hbk). cbn [negb].
  rewrite (bind_done _ _ _ _ _ (load_done _ _ _ Ho)).
  unfold writable in Hw. rewrite Hw. cbn [negb].
  rewrite (bind_done _ _ _ _ _ (buffer_size_get_done _ _ _ Ho)).
  destruct (N.ltb_spec (effective_size E bo) (size_t_of (digest_size E d))) as [|_]; [lia|].
  rewrite emit_done.
  set (w1 := {| heap := heap w; trace := trace w ++ [EvCtxInit] |}).
  assert (Hk1 : heap w1 !! lk = Some bk) by done.
  rewrite (bind_done _ _ _ _ _ (st_data_get_done _ _ _ Hk1)).
  rewrite (bind_done _ _ _ _ _ (st_length_get_done _ _ _ Hk1)).
  cbv zeta. rewrite emit_done.
  destruct (HMAC_Init_ex_d E (HMAC_CTX_init_d E) (st_data bk)
              (int_of_size_t (st_length bk)) d) as [r ctx].
  cbn [fst snd].
  destruct (Z.eqb_spec r 1) as [->|Hr1]; cbn [negb].
  2:{ unfold log, cleanup_ctx, error, ret. rewrite !emit_done. simpl.
      rewrite insert_id by done. by rewrite <- !app_assoc. }
  set (w2 := {| heap := heap w1; trace := _ |}).
  assert (Hs2 : heap w2 !! ls = Some bs) by done.
  pose proof (update_rounds_exact (N.to_nat rounds) ctx ls bs w2 Hs2) as Hloop.
  destruct (first_failed E (N.to_nat rounds) ctx bs) as [j|];
    rewrite (bind_done _ _ _ _ _ Hloop); cbn [negb]; clear Hloop.
  { unfold cleanup_ctx, error, ret, end_events. rewrite !emit_done. simpl.
    rewrite insert_id by done. rewrite <- !app_assoc. simpl.
    by rewrite <- !app_assoc. }
  set (w3 := {| heap := heap w2; trace := _ |}).
  assert (Ho3 : heap w3 !! lo = Some bo) by done.
  destruct (HMAC_Final_d E (fed E (N.to_nat rounds) ctx bs)) as [[[r wr] rep] ctx''] eqn:HF.
  rewrite (bind_done _ _ _ _ _ (hmac_final_done _ _ _ _ _ _ _ _ Ho3 HF)).
  destruct (Z.eqb_spec r 1) as [->|Hr1]; cbn [negb].
  2:{ unfold log, cleanup_ctx, error, ret. rewrite !emit_done. simpl.
      by rewrite ?app_nil_r, <- !app_assoc. }
  rewrite Hu. rewrite (Z.eqb_sym (digest_size E d)).
  destruct (Z.eqb_spec (uint_t_of rep) (digest_size E d)) as [Heq|Hne]; cbn [negb].
  2:{ unfold log, cleanup_ctx, error, ret. rewrite !emit_done. simpl.
      by rewrite ?app_nil_r, <- !app_assoc. }
  unfold end_output, tracked.
  destruct (st_valid_tracked E (st_opts bo)).
  - erewrite bind_done; last first.
    { apply st_length_set_done. simpl. apply lookup_insert_eq. }
    rewrite emit_done. unfold ret. simpl.
    by rewrite insert_insert_eq, ?app_nil_r, <- !app_assoc.
  - unfold ret at 1. unfold bind at 1. rewrite emit_done. unfold ret. simpl.
    by rewrite ?app_nil_r, <- !app_assoc.
Qed.

Lemma count_update_end_events rounds d bs bk lo e :
  count is_update (end_events E rounds d bs bk lo e) = end_updates rounds e.
Proof.
  rewrite count_end_events.
  unfold count at 2. rewrite only_repeat_true, repeat_length by done.
  destruct e; unfold count, only; simpl; lia.
Qed.

(** * The claims *)

(** C5. [hmac_multi_digest_nonnull_output] checks the five preconditions in
    the order rounds, digest, input, key, output: a call that violates one
    of them returns [NULL] after logging the message of the first violated
    precondition, and does nothing else, so no call to the HMAC primitive is
    made and the heap is as it was.  In particular an absent or empty input
    or key makes the call fail. *)
Theorem C5_validation_order w rounds digest s key output :
  valid_ptr (heap w) s = true ->
  valid_ptr (heap w) key = true ->
  valid_ptr (heap w) output = true ->
  (forall p,
      first_violated E (heap w) rounds digest s key output = Some p ->
      exists m,
        precondition_of m = Some p
        /\ hmac_multi_digest_nonnull_output E rounds digest s key output w
           = Done None {| heap := heap w; trace := trace w ++ [EvLog m] |}
        /\ count (E:=E) is_crypto [EvLog m] = 0%nat)
  /\ (present_nonempty (heap w) s = false \/ present_nonempty (heap w) key = false ->
      exists m,
        hmac_multi_digest_nonnull_output E rounds digest s key output w
        = Done None {| heap := heap w; trace := trace w ++ [EvLog m] |}).
Proof.
  intros Vs Vk Vo. split.
  - intros p Hp.
    destruct (nonnull_rejected w rounds digest s key output p Vs Vk Vo Hp) as (m & Hm & Hrun).
    exists m. done.
  - intros Hempty.
    destruct (first_violated E (heap w) rounds digest s key output) as [p|] eqn:Hv.
    + destruct (nonnull_rejected w rounds digest s key output p Vs Vk Vo Hv) as (m & _ & Hrun).
      by exists m.
    + exfalso. revert Hv. unfold first_violated.
      destruct (1 <=? rounds)%N; [|done].
      destruct (digest_resolves E digest); [|done].
      destruct Hempty as [-> | ->]; [done|].
      by destruct (present_nonempty (heap w) s).
Qed.

(** C3. The size the capacity check uses is the buffer's capacity when
    AVAILABLE is set and its length otherwise.  For a call whose first four
    preconditions hold and whose output is present and writable, the check
    passes (the HMAC context is opened) exactly when that size is at least
    the digest's output size; otherwise the call returns [NULL] with the
    too-small message and nothing else has happened.  A buffer of exactly
    the output size passes, one that is a byte short fails. *)
Theorem C3_capacity_check w rounds d s key lo bo :
  (1 <= rounds)%N ->
  1 <= digest_size E d ->
  present_nonempty (heap w) s = true ->
  present_nonempty (heap w) key = true ->
  heap w !! lo = Some bo ->
  writable E bo = true ->
  let run := hmac_multi_digest_nonnull_output E rounds (Some d) s key (Some lo) w in
  let passes := exists r w' evs, run = Done r w' /\ trace w' = trace w ++ EvCtxInit :: evs in
  let fails := run = Done None {| heap := heap w; trace := trace w ++ [EvLog LogTooSmall] |} in
  buffer_size_get E (Some lo) w
  = Done (if st_valid_avail E (st_opts bo) then st_avail bo else st_length bo) w
  /\ effective_size E bo
     = (if st_valid_avail E (st_opts bo) then st_avail bo else st_length bo)
  /\ (digest_size E d <= Z.of_N (effective_size E bo) -> passes)
  /\ (Z.of_N (effective_size E bo) < digest_size E d -> fails)
  /\ (Z.of_N (effective_size E bo) = digest_size E d -> passes)
  /\ (Z.of_N (effective_size E bo) = digest_size E d - 1 -> fails).
Proof.
  intros Hr Hd Hs Hk Ho Hw run passes fails.
  assert (Hpass : digest_size E d <= Z.of_N (effective_size E bo) -> passes).
  { intros Hsz. subst passes run.
    destruct s as [ls|]; [|done]. destruct key as [lk|]; [|done].
    unfold present_nonempty in Hs, Hk.
    destruct (heap w !! ls) as [bs|] eqn:Hls; [|done].
    destruct (heap w !! lk) as [bk|] eqn:Hlk; [|done].
    destruct (N.eqb_spec (st_length bs) 0); [done|].
    destruct (N.eqb_spec (st_length bk) 0); [done|].
    destruct (nonnull_protocol w rounds d ls bs lk bk lo bo) as (e & _ & Hrun); try done.
    eexists _, _, _. split; [exact Hrun|]. reflexivity. }
  assert (Hfail : Z.of_N (effective_size E bo) < digest_size E d -> fails).
  { intros Hsz. subst fails run.
    unfold hmac_multi_digest_nonnull_output. fold (digest_size E d).
    destruct (N.ltb_spec rounds 1) as [|_]; [lia|].
    destruct (Z.ltb_spec (digest_size E d) 1) as [|_]; [lia|].
    assert (Vs : valid_ptr (heap w) s = true).
    { destruct s as [ls|]; [|done]. simpl in *. by destruct (heap w !! ls). }
    assert (Vk : valid_ptr (heap w) key = true).
    { destruct key as [lk|]; [|done]. simpl in *. by destruct (heap w !! lk). }
    rewrite (bind_done _ _ _ _ _ (st_empty_done w s Vs)), Hs. cbn [negb].
    rewrite (bind_done _ _ _ _ _ (st_empty_done w key Vk)), Hk. cbn [negb].
    rewrite (bind_done _ _ _ _ _ (load_done _ _ _ Ho)).
    unfold writable in Hw. rewrite Hw. cbn [negb].
    rewrite (bind_done _ _ _ _ _ (buffer_size_get_done _ _ _ Ho)).
    destruct (digest_size_fits d Hd) as [_ Hz].
    destruct (N.ltb_spec (effective_size E bo) (size_t_of (digest_size E d))); [done|lia]. }
  split; [by apply buffer_size_get_done|].
  split; [done|].
  split; [done|]. split; [done|].
  split; intros Heq; [apply Hpass | apply Hfail]; lia.
Qed.

(** C4. After a successful call the length field of the output is the
    digest's output size when the buffer is TRACKED, and what it was before
    otherwise; after a failed call, whatever failed and whatever was logged,
    the length field is what it was. *)
Theorem C4_length_field w rounds digest s key lo bo :
  valid_ptr (heap w) s = true ->
  valid_ptr (heap w) key = true ->
  heap w !! lo = Some bo ->
  exists r w' evs bo',
    hmac_multi_digest_nonnull_output E rounds digest s key (Some lo) w = Done r w'
    /\ trace w' = trace w ++ evs
    /\ heap w' !! lo = Some bo'
    /\ (r = None -> st_length bo' = st_length bo)
    /\ (forall m, EvLog m ∈ evs -> st_length bo' = st_length bo)
    /\ (r <> None ->
        exists d, digest = Some d
          /\ (tracked E bo = true -> Z.of_N (st_length bo') = digest_size E d)
          /\ (tracked E bo = false -> st_length bo' = st_length bo)).
Proof.
  intros Vs Vk Ho.
  destruct (nonnull_run w rounds digest s key (Some lo) Vs Vk (valid_ptr_intro _ _ _ Ho))
    as [(p & m & Hv & Hm & Hrun) | (d & ls & bs & lk & bk & lo' & bo1 & e & Hv & -> & -> & -> & [= <-] & Hs & Hk & Ho' & He & Hrun)].
  - eexists None, _, [EvLog m], bo. rewrite Hrun. simpl. done.
  - rewrite Ho in Ho'. injection Ho' as <-.
    eexists _, _, _, _. split; [exact Hrun|]. simpl.
    split; [reflexivity|]. split; [apply lookup_insert_eq|].
    assert (Hfail : end_ret lo e = None -> st_length (end_output E d bo e) = st_length bo).
    { by destruct e. }
    split; [done|].
    split. { intros m Hm. apply Hfail. eapply end_events_log. eauto. }
    intros Hr. exists d. split; [done|].
    destruct e as [| | | |wr rep]; try done. simpl.
    destruct (first_violated_None _ _ _ _ _ _ Hv) as (_ & d' & ? & ? & ? & ? & ? & ? & [= <-] & _ & _ & _ & Hd & _).
    destruct (digest_size_fits d Hd) as [_ Hz].
    by destruct (tracked E bo).
Qed.

(** C6. In every call the number of opened contexts that are not released
    is zero at the return: either the call neither opens nor releases a
    context, or it opens one as its first outside call, releases it as its
    last, and neither opens nor releases another in between. *)
Theorem C6_context_released w rounds digest s key output :
  valid_ptr (heap w) s = true ->
  valid_ptr (heap w) key = true ->
  valid_ptr (heap w) output = true ->
  exists r w' evs,
    hmac_multi_digest_nonnull_output E rounds digest s key output w = Done r w'
    /\ trace w' = trace w ++ evs
    /\ open_contexts evs = 0
    /\ ((count is_ctx_init evs = 0%nat /\ count is_ctx_cleanup evs = 0%nat)
        \/ exists mid, evs = EvCtxInit :: mid ++ [EvCtxCleanup]
                       /\ count is_ctx_init mid = 0%nat
                       /\ count is_ctx_cleanup mid = 0%nat).
Proof.
  intros Vs Vk Vo.
  destruct (nonnull_run w rounds digest s key output Vs Vk Vo)
    as [(p & m & Hv & Hm & Hrun) | (d & ls & bs & lk & bk & lo & bo & e & Hv & -> & -> & -> & -> & Hs & Hk & Ho & He & Hrun)].
  - eexists None, _, [EvLog m]. rewrite Hrun. simpl. split; [done|]. split; [done|].
    split; [done|]. by left.
  - eexists _, _, _. split; [exact Hrun|]. simpl. split; [reflexivity|].
    destruct (end_tail_cleanup lo e) as (t & Ht & Hti & Htc).
    set (mid := [EvHmacInit (st_data bk) (int_of_size_t (st_length bk)) d]
                ++ repeat (EvHmacUpdate (st_data bs) (st_length bs)) (end_updates rounds e)
                ++ t).
    assert (Hshape : end_events E rounds d bs bk lo e
                     = [EvCtxInit] ++ mid ++ [EvCtxCleanup]).
    { unfold end_events, mid. rewrite Ht. simpl. by rewrite <- !app_assoc. }
    assert (Hmi : count is_ctx_init mid = 0%nat).
    { unfold mid. by rewrite !count_app, count_repeat_false, Hti. }
    assert (Hmc : count is_ctx_cleanup mid = 0%nat).
    { unfold mid. by rewrite !count_app, count_repeat_false, Htc. }
    rewrite Hshape. split.
    + unfold open_contexts. rewrite !count_app, Hmi, Hmc. done.
    + right. by exists mid.
Qed.

(** C8. Whenever finalize was called and the length it reported is not the
    digest's output size, the call returns [NULL]; and when finalize itself
    returned 1, the size-mismatch message is logged. *)
Theorem C8_size_mismatch w rounds d s key output :
  valid_ptr (heap w) s = true ->
  valid_ptr (heap w) key = true ->
  valid_ptr (heap w) output = true ->
  exists r w' evs,
    hmac_multi_digest_nonnull_output E rounds (Some d) s key output w = Done r w'
    /\ trace w' = trace w ++ evs
    /\ forall dst st wr rep,
         EvHmacFinal dst st wr rep ∈ evs ->
         uint_t_of rep <> digest_size E d ->
         r = None /\ (st = 1 -> EvLog LogSizeMismatch ∈ evs).
Proof.
  intros Vs Vk Vo.
  destruct (nonnull_run w rounds (Some d) s key output Vs Vk Vo)
    as [(p & m & Hv & Hm & Hrun) | (d' & ls & bs & lk & bk & lo & bo & e & Hv & [= <-] & -> & -> & -> & Hs & Hk & Ho & He & Hrun)].
  - eexists None, _, [EvLog m]. rewrite Hrun. simpl. split; [done|]. split; [done|].
    intros dst st wr rep Hin. in_cases Hin.
  - eexists _, _, _. split; [exact Hrun|]. simpl. split; [reflexivity|].
    intros dst st wr rep Hin Hne.
    destruct (end_events_final _ _ _ _ _ _ _ _ _ _ Hin) as [-> [-> | [-> [-> | ->]]]].
    + split; [done|]. intros ->. by simpl in He.
    + split; [done|]. intros _. unfold end_events. simpl end_tail.
      do 2 (apply elem_of_app; right). rewrite !elem_of_cons. auto.
    + by simpl in He.
Qed.

(** C10. When the size-mismatch message is logged the call returns [NULL],
    yet the data region of the output already holds, from offset 0, the
    bytes finalize stored.  After any failed call the length field of the
    output is what it was, and when the call failed without reaching
    finalize the whole heap, data regions included, is what it was. *)
Theorem C10_failure_frame w rounds digest s key lo bo :
  valid_ptr (heap w) s = true ->
  valid_ptr (heap w) key = true ->
  heap w !! lo = Some bo ->
  exists r w' evs,
    hmac_multi_digest_nonnull_output E rounds digest s key (Some lo) w = Done r w'
    /\ trace w' = trace w ++ evs
    /\ (EvLog LogSizeMismatch ∈ evs ->
        r = None
        /\ exists wr rep,
             EvHmacFinal lo 1 wr rep ∈ evs
             /\ heap w' !! lo = Some (set_data bo (write_at0 wr (st_data bo))))
    /\ (r = None ->
        exists bo', heap w' !! lo = Some bo' /\ st_length bo' = st_length bo)
    /\ (r = None -> count is_final evs = 0%nat -> heap w' = heap w).
Proof.
  intros Vs Vk Ho.
  destruct (nonnull_run w rounds digest s key (Some lo) Vs Vk (valid_ptr_intro _ _ _ Ho))
    as [(p & m & Hv & Hm & Hrun) | (d & ls & bs & lk & bk & lo' & bo1 & e & Hv & -> & -> & -> & [= <-] & Hs & Hk & Ho' & He & Hrun)].
  - eexists None, _, [EvLog m]. rewrite Hrun. simpl. split; [done|]. split; [done|].
    split.
    { intros Hin. in_cases Hin. by injection Hin as <-. }
    split; [by exists bo|done].
  - rewrite Ho in Ho'. injection Ho' as <-.
    eexists _, _, _. split; [exact Hrun|]. simpl. split; [reflexivity|].
    split.
    { intros Hin. apply elem_of_end_events in Hin.
      destruct Hin as [|[|[|Hin]]]; try done.
      destruct e as [|k|st wr rep|wr rep|wr rep]; simpl in Hin; in_cases Hin.
      split; [done|]. exists wr, rep. split; [|apply lookup_insert_eq].
      unfold end_events. simpl end_tail.
      do 2 (apply elem_of_app; right). rewrite !elem_of_cons. auto. }
    split.
    { intros Hr. eexists. split; [apply lookup_insert_eq|]. by destruct e. }
    intros Hr Hfin.
    rewrite count_end_events, count_repeat_false in Hfin by done.
    destruct e; try done; simpl; by apply insert_id.
Qed.


(** ** The claims that speak of a primitive failing *)

Lemma int_of_size_t_small n : Z.of_N n < 2 ^ 31 -> int_of_size_t n = Z.of_N n.
Proof.
  intros H. unfold int_of_size_t, int_t_of.
  rewrite Z.mod_small by lia. lia.
Qed.

Lemma protocol_end_of_ok rounds d bs bk :
  end_ok E rounds d (protocol_end_of E rounds d bs bk).
Proof.
  unfold protocol_end_of.
  destruct (fst (keying E d bk) =? 1); cbn [negb]; [|done].
  destruct (first_failed E _ _ bs) as [j|] eqn:Hf.
  { apply first_failed_Some in Hf. simpl. lia. }
  destruct (HMAC_Final_d E _) as [[[st wr] rep] c].
  destruct (Z.eqb_spec st 1); cbn [negb]; [|done].
  by destruct (Z.eqb_spec (uint_t_of rep) (digest_size E d)).
Qed.

(** The end of the protocol, by the answers of the primitive. *)
Lemma protocol_end_of_keying_failed rounds d bs bk :
  fst (keying E d bk) <> 1 ->
  protocol_end_of E rounds d bs bk = EndInitFailed.
Proof.
  intros H. unfold protocol_end_of.
  by destruct (Z.eqb_spec (fst (keying E d bk)) 1).
Qed.

Lemma protocol_end_of_update_failed rounds d bs bk j :
  fst (keying E d bk) = 1 ->
  (j < N.to_nat rounds)%nat ->
  (forall k, (k < j)%nat -> update_status E (snd (keying E d bk)) bs k = 1) ->
  update_status E (snd (keying E d bk)) bs j <> 1 ->
  protocol_end_of E rounds d bs bk = EndUpdateFailed (S j).
Proof.
  intros H1 Hj Hok Hbad. unfold protocol_end_of. rewrite H1. cbn [Z.eqb negb].
  assert (Hf : first_failed E (N.to_nat rounds) (snd (keying E d bk)) bs = Some j)
    by (by apply first_failed_Some).
  simpl. by rewrite Hf.
Qed.

Lemma protocol_end_of_some_update_failed rounds d bs bk j :
  fst (keying E d bk) = 1 ->
  (j < N.to_nat rounds)%nat ->
  update_status E (snd (keying E d bk)) bs j <> 1 ->
  exists j', protocol_end_of E rounds d bs bk = EndUpdateFailed j'.
Proof.
  intros H1 Hj Hbad. unfold protocol_end_of. rewrite H1. simpl.
  destruct (first_failed E (N.to_nat rounds) (snd (keying E d bk)) bs) as [j'|] eqn:Hf;
    [by eexists|].
  destruct Hbad. by eapply first_failed_None.
Qed.

Lemma protocol_end_of_finalized rounds d bs bk st wr rep c :
  fst (keying E d bk) = 1 ->
  (forall k, (k < N.to_nat rounds)%nat ->
             update_status E (snd (keying E d bk)) bs k = 1) ->
  HMAC_Final_d E (fed E (N.to_nat rounds) (snd (keying E d bk)) bs)
  = (st, wr, rep, c) ->
  protocol_end_of E rounds d bs bk
  = if negb (st =? 1) then EndFinalFailed st wr rep
    else if negb (uint_t_of rep =? digest_size E d) then EndSizeMismatch wr rep
    else EndSuccess wr rep.
Proof.
  intros H1 Hok HF. unfold protocol_end_of. rewrite H1. simpl.
  apply first_failed_None in Hok. by rewrite Hok, HF.
Qed.

(** C1, as the code has it.  A call that passes the five validations opens
    one context, keys it once with the bytes of the key, the key's length
    handed over as an [int] (the length itself when it is below 2^31) and
    the digest, and never finalizes more than once; every update it makes
    feeds the whole input, and it makes at most [rounds] of them.  When the
    keying call fails, no update and no finalize is made.  When the keying
    call succeeds and the update call number [j + 1] is the first to fail,
    that is the last update and no finalize is made.  When the keying call
    and all [rounds] update calls succeed, the trace is exactly: open, key,
    [rounds] updates on the whole input, one finalize on the context they
    left, writing at offset 0 of the data of the output, and what follows
    has no further call to the primitive. *)
Theorem C1_round_protocol w rounds digest s key output :
  first_violated E (heap w) rounds digest s key output = None ->
  exists d ls bs lk bk lo bo r w' evs,
    digest = Some d /\ s = Some ls /\ key = Some lk /\ output = Some lo
    /\ heap w !! ls = Some bs /\ heap w !! lk = Some bk /\ heap w !! lo = Some bo
    /\ hmac_multi_digest_nonnull_output E rounds digest s key output w = Done r w'
    /\ trace w' = trace w ++ evs
    /\ count is_ctx_init evs = 1%nat
    /\ only is_keying evs
       = [EvHmacInit (st_data bk) (int_of_size_t (st_length bk)) d]
    /\ (Z.of_N (st_length bk) < 2 ^ 31 ->
        int_of_size_t (st_length bk) = Z.of_N (st_length bk))
    /\ (exists k, (k <= N.to_nat rounds)%nat
                  /\ only is_update evs
                     = repeat (EvHmacUpdate (st_data bs) (st_length bs)) k)
    /\ (count is_final evs <= 1)%nat
    /\ (fst (keying E d bk) <> 1 ->
        r = None /\ count is_update evs = 0%nat /\ count is_final evs = 0%nat)
    /\ (fst (keying E d bk) = 1 ->
        forall j,
          (j < N.to_nat rounds)%nat ->
          (forall k, (k < j)%nat ->
                     update_status E (snd (keying E d bk)) bs k = 1) ->
          update_status E (snd (keying E d bk)) bs j <> 1 ->
          r = None /\ count is_update evs = S j /\ count is_final evs = 0%nat)
    /\ (fst (keying E d bk) = 1 ->
        (forall k, (k < N.to_nat rounds)%nat ->
                   update_status E (snd (keying E d bk)) bs k = 1) ->
        exists st wr rep c tail bo',
          HMAC_Final_d E (fed E (N.to_nat rounds) (snd (keying E d bk)) bs)
          = (st, wr, rep, c)
          /\ evs = [EvCtxInit;
                    EvHmacInit (st_data bk) (int_of_size_t (st_length bk)) d]
                   ++ repeat (EvHmacUpdate (st_data bs) (st_length bs)) (N.to_nat rounds)
                   ++ EvHmacFinal lo st wr rep :: tail
          /\ count is_keying tail = 0%nat /\ count is_update tail = 0%nat
          /\ count is_final tail = 0%nat
          /\ heap w' !! lo = Some bo'
          /\ st_data bo' = write_at0 wr (st_data bo)).
Proof.
  intros Hv.
  destruct (first_violated_None _ _ _ _ _ _ Hv)
    as (Hr & d & ls & bs & lk & bk & lo & bo & -> & -> & -> & -> & Hd & Hs & Hbs & Hk & Hbk & Ho & Hw & Hsz).
  pose proof (nonnull_protocol_exact w rounds d ls bs lk bk lo bo
                Hr Hd Hs Hbs Hk Hbk Ho Hw Hsz) as Hrun.
  pose proof (protocol_end_of_ok rounds d bs bk) as He.
  exists d, ls, bs, lk, bk, lo, bo. eexists _, _, _.
  do 7 (split; [done|]). split; [exact Hrun|]. split; [reflexivity|].
  cbn [heap trace].
  split.
  { rewrite count_end_events, count_repeat_false by done.
    by destruct (protocol_end_of E rounds d bs bk). }
  split.
  { rewrite only_end_events, only_repeat_false by done.
    by destruct (protocol_end_of E rounds d bs bk). }
  split; [apply int_of_size_t_small|].
  split.
  { exists (end_updates rounds (protocol_end_of E rounds d bs bk)).
    split; [by eapply end_updates_le|].
    rewrite only_end_events, only_repeat_true by done.
    destruct (protocol_end_of E rounds d bs bk); simpl; by rewrite ?app_nil_r. }
  split.
  { rewrite count_end_events, count_repeat_false by done.
    destruct (protocol_end_of E rounds d bs bk); unfold count, only; simpl; lia. }
  split.
  { intros Hk0. rewrite (protocol_end_of_keying_failed _ _ _ _ Hk0).
    split; [done|]. rewrite count_update_end_events.
    split; [done|]. by rewrite count_end_events, count_repeat_false. }
  split.
  { intros Hk1 j Hj Hok Hbad.
    rewrite (protocol_end_of_update_failed _ _ _ _ _ Hk1 Hj Hok Hbad).
    split; [done|]. rewrite count_update_end_events.
    split; [done|]. by rewrite count_end_events, count_repeat_false. }
  intros Hk1 Hok.
  destruct (HMAC_Final_d E (fed E (N.to_nat rounds) (snd (keying E d bk)) bs))
    as [[[st wr] rep] c] eqn:HF.
  rewrite (protocol_end_of_finalized _ _ _ _ _ _ _ _ Hk1 Hok HF).
  exists st, wr, rep, c. unfold end_events.
  destruct (Z.eqb_spec st 1) as [->|Hst]; cbn [negb];
    [destruct (Z.eqb_spec (uint_t_of rep) (digest_size E d)); cbn [negb]|];
    cbn [end_updates end_tail]; eexists _, _;
    (split; [reflexivity|]); (split; [reflexivity|]);
    rewrite lookup_insert_eq; do 3 (split; [done|]); (split; [reflexivity|]).
  - simpl. by destruct (tracked E bo).
  - done.
  - done.
Qed.

(** What a call at the public entry returns, by the inputs, the allocator
    and the answers of the primitive. *)
Lemma public_result w rounds digest s key output :
  valid_ptr (heap w) s = true ->
  valid_ptr (heap w) key = true ->
  valid_ptr (heap w) output = true ->
  exists r w' evs,
    hmac_multi_digest E rounds digest s key output w = Done r w'
    /\ trace w' = trace w ++ evs
    /\ ((exists m, EvLog m ∈ evs) <-> r = None)
    /\ match engine_view E w digest output with
       | None => r = None
       | Some (h, lo) =>
           match first_violated E h rounds digest s key (Some lo) with
           | Some _ => r = None
           | None =>
               exists d ls bs lk bk,
                 digest = Some d /\ s = Some ls /\ key = Some lk
                 /\ h !! ls = Some bs /\ h !! lk = Some bk
                 /\ r = end_ret lo (protocol_end_of E rounds d bs bk)
           end
       end.
Proof.
  intros Vs Vk Vo. destruct output as [lo|]; simpl hmac_multi_digest; cbn [engine_view].
  - simpl in Vo. destruct (heap w !! lo) as [bo|] eqn:Ho; [|done].
    destruct (nonnull_summary w rounds digest s key lo bo Vs Vk Ho)
      as (r & b1 & inner & Hrun & _ & Hlog & _).
    eexists _, _, _. split; [exact Hrun|]. cbn [heap trace].
    split; [reflexivity|]. split; [exact Hlog|].
    destruct (first_violated E (heap w) rounds digest s key (Some lo)) as [p|] eqn:Hv.
    + destruct (nonnull_rejected w rounds digest s key (Some lo) p Vs Vk
                  (valid_ptr_intro _ _ _ Ho) Hv) as (m & _ & Hrej).
      rewrite Hrej in Hrun. by injection Hrun as <-.
    + destruct (first_violated_None _ _ _ _ _ _ Hv)
        as (Hr & d & ls & bs & lk & bk & lo' & bo' & -> & -> & -> & [= <-] & Hd & Hs & Hbs & Hk & Hbk & Ho' & Hw & Hsz).
      rewrite (nonnull_protocol_exact w rounds d ls bs lk bk lo bo'
                 Hr Hd Hs Hbs Hk Hbk Ho' Hw Hsz) in Hrun.
      exists d, ls, bs, lk, bk. do 5 (split; [done|]). by injection Hrun as <-.
  - pose proof (null_output_run w rounds digest s key Vs Vk) as Hrun.
    pose proof (fresh_loc_free (heap w)) as Hl.
    cbv zeta in Hrun.
    destruct (st_alloc E _) as [b0|].
    2:{ eexists _, _, _. split; [exact Hrun|]. cbn [heap trace].
        split; [reflexivity|]. split; [|done]. split; [done|].
        intros _. exists LogAllocFailed.
        apply elem_of_cons. right. apply elem_of_cons. by left. }
    destruct Hrun as (r1 & b1 & inner & Hinner & Hlog & Hevs & Hcases).
    set (l := fresh (dom (heap w))) in *.
    set (w0 := {| heap := <[l := b0]> (heap w); trace := _ |}) in Hinner.
    assert (Vs0 : valid_ptr (heap w0) s = true) by (by apply valid_ptr_insert).
    assert (Vk0 : valid_ptr (heap w0) key = true) by (by apply valid_ptr_insert).
    assert (Hlo0 : heap w0 !! l = Some b0) by apply lookup_insert_eq.
    assert (Hres : match first_violated E (heap w0) rounds digest s key (Some l) with
                   | Some _ => r1 = None
                   | None =>
                       exists d ls bs lk bk,
                         digest = Some d /\ s = Some ls /\ key = Some lk
                         /\ heap w0 !! ls = Some bs /\ heap w0 !! lk = Some bk
                         /\ r1 = end_ret l (protocol_end_of E rounds d bs bk)
                   end).
    { destruct (first_violated E (heap w0) rounds digest s key (Some l)) as [p|] eqn:Hv.
      - destruct (nonnull_rejected w0 rounds digest s key (Some l) p Vs0 Vk0
                    (valid_ptr_intro _ _ _ Hlo0) Hv) as (m & _ & Hrej).
        rewrite Hrej in Hinner. by injection Hinner as <-.
      - destruct (first_violated_None _ _ _ _ _ _ Hv)
          as (Hr & d & ls & bs & lk & bk & lo' & bo' & -> & -> & -> & [= <-] & Hd & Hs & Hbs & Hk & Hbk & Ho' & Hw & Hsz).
        rewrite (nonnull_protocol_exact w0 rounds d ls bs lk bk _ bo'
                   Hr Hd Hs Hbs Hk Hbk Ho' Hw Hsz) in Hinner.
        exists d, ls, bs, lk, bk. do 5 (split; [done|]). by injection Hinner as <-. }
    change (<[l := b0]> (heap w)) with (heap w0).
    destruct Hcases as [[-> Hrun] | [-> Hrun]];
      (eexists _, _, _; split; [exact Hrun|]; cbn [heap trace];
       split; [reflexivity|]).
    + split.
      { split; [done|]. intros _. destruct Hlog as [_ Hlog].
        destruct (Hlog eq_refl) as [m Hm]. exists m.
        apply elem_of_cons. right. apply elem_of_app. by left. }
      exact Hres.
    + split.
      { split; [|done]. intros [m Hm].
        apply elem_of_cons in Hm. destruct Hm as [|Hm]; [done|].
        destruct Hlog as [Hlog _]. apply Hlog. eauto. }
      exact Hres.
Qed.

(** C9, as the code has it.  Every failure comes back as the same value
    [NULL]: when the allocator answers [NULL]; when a precondition is
    violated (an invalid argument, an output that is not writable or too
    small); when the keying call, an update call or finalize does not
    answer 1; when the length finalize reported is not the digest's size.
    When none of these happens the call returns the stringer it worked on.
    A call returns [NULL] exactly when it logged a message, so the returned
    value tells failure from success, and the kind of failure is in the log
    only. *)
Theorem C9_failure_value w rounds digest s key output :
  valid_ptr (heap w) s = true ->
  valid_ptr (heap w) key = true ->
  valid_ptr (heap w) output = true ->
  exists r w' evs,
    hmac_multi_digest E rounds digest s key output w = Done r w'
    /\ trace w' = trace w ++ evs
    /\ (forall m, EvLog m ∈ evs -> r = None)
    /\ (r = None -> exists m, EvLog m ∈ evs)
    /\ (engine_view E w digest output = None -> r = None)
    /\ forall h lo,
         engine_view E w digest output = Some (h, lo) ->
         (forall p, first_violated E h rounds digest s key (Some lo) = Some p ->
                    r = None)
         /\ forall d ls bs lk bk,
              first_violated E h rounds digest s key (Some lo) = None ->
              digest = Some d -> s = Some ls -> key = Some lk ->
              h !! ls = Some bs -> h !! lk = Some bk ->
              (fst (keying E d bk) <> 1 -> r = None)
              /\ (fst (keying E d bk) = 1 ->
                  forall j, (j < N.to_nat rounds)%nat ->
                            update_status E (snd (keying E d bk)) bs j <> 1 ->
                            r = None)
              /\ (fst (keying E d bk) = 1 ->
                  (forall k, (k < N.to_nat rounds)%nat ->
                             update_status E (snd (keying E d bk)) bs k = 1) ->
                  forall st wr rep c,
                    HMAC_Final_d E (fed E (N.to_nat rounds) (snd (keying E d bk)) bs)
                    = (st, wr, rep, c) ->
                    (st <> 1 -> r = None)
                    /\ (st = 1 -> uint_t_of rep <> digest_size E d -> r = None)
                    /\ (st = 1 -> uint_t_of rep = digest_size E d -> r = Some lo)).
Proof.
  intros Vs Vk Vo.
  destruct (public_result w rounds digest s key output Vs Vk Vo)
    as (r & w' & evs & Hrun & Ht & Hlog & Hres).
  exists r, w', evs. split; [done|]. split; [done|].
  split. { intros m Hm. apply Hlog. eauto. }
  split; [apply Hlog|].
  split. { intros Hv. by rewrite Hv in Hres. }
  intros h lo Hv. rewrite Hv in Hres. split.
  { intros p Hp. by rewrite Hp in Hres. }
  intros d ls bs lk bk Hnone -> -> -> Hs Hk. rewrite Hnone in Hres.
  destruct Hres as (d' & ls' & bs' & lk' & bk' & [= <-] & [= <-] & [= <-] & Hs' & Hk' & ->).
  rewrite Hs in Hs'. rewrite Hk in Hk'. injection Hs' as <-. injection Hk' as <-.
  split; [|split].
  - intros H0. by rewrite (protocol_end_of_keying_failed _ _ _ _ H0).
  - intros H1 j Hj Hbad.
    destruct (protocol_end_of_some_update_failed rounds d bs bk j H1 Hj Hbad) as [j' ->].
    done.
  - intros H1 Hok st wr rep c HF.
    rewrite (protocol_end_of_finalized _ _ _ _ _ _ _ _ H1 Hok HF).
    split; [|split].
    + intros Hst. by destruct (Z.eqb_spec st 1).
    + intros -> Hne. simpl. by destruct (Z.eqb_spec (uint_t_of rep) (digest_size E d)).
    + intros -> Heq. simpl. by destruct (Z.eqb_spec (uint_t_of rep) (digest_size E d)).
Qed.

(** Whatever the digest handle is, the first thing the auto-allocation path
    does is to ask the allocator for as many bytes as the size query
    answered, converted to [size_t]. *)
Lemma null_output_asks_allocator_first w rounds digest s key :
  valid_ptr (heap w) s = true ->
  valid_ptr (heap w) key = true ->
  exists r w' res evs,
    hmac_multi_digest_null_output E rounds digest s key w = Done r w'
    /\ trace w'
       = trace w ++ EvAlloc (size_t_of (int_t_of (EVP_MD_size_d E digest))) res :: evs.
Proof.
  intros Vs Vk.
  pose proof (null_output_run w rounds digest s key Vs Vk) as Hrun. simpl in Hrun.
  destruct (st_alloc E _) as [b0|].
  - destruct Hrun as (r1 & b1 & inner & _ & _ & _ & [[_ Hrun] | [_ Hrun]]);
      eexists _, _, _, _; (split; [exact Hrun|]); reflexivity.
  - eexists _, _, _, _. split; [exact Hrun|]. reflexivity.
Qed.

End HmacProofs.

(** * The code on concrete inputs *)

(** C2 at a failing input: a present digest whose output size is 0 (the
    size OpenSSL's null digest has), output absent.  The size does not
    resolve, yet the allocator is called first and gives a stringer, which
    the round engine then rejects and the call frees.  With the handle
    absent the allocator is asked for [(size_t) -1] bytes and it is the
    allocation failure that is logged. *)
Theorem C2_allocates_before_resolving :
  digest_resolves Toy_ok (Some 0) = false
  /\ observe (hmac_multi_digest Toy_ok 1 (Some 0) (Some 1%positive) (Some 2%positive) None
                (world3 Toy_ok))
     = Some (None, [EvAlloc 0 (Some 4%positive); EvLog LogDigestSize; EvFree 4%positive])
  /\ digest_resolves Toy_ok None = false
  /\ observe (hmac_multi_digest Toy_ok 1 None (Some 1%positive) (Some 2%positive) None
                (world3 Toy_ok))
     = Some (None, [EvAlloc 18446744073709551615 None; EvLog LogAllocFailed]).
Proof. repeat split. Qed.

(** Three rounds over "ab" with key "k" into the tracked block at 3, with a
    2-byte digest: one keying, three updates on the whole input, one
    finalize; the length field becomes 2 and the first two bytes change. *)
Example three_rounds_supplied_output :
  let E := Toy_ok in
  let run :=
    hmac_multi_digest E 3 (Some 2)
      (Some 1%positive) (Some 2%positive) (Some 3%positive) (world3 E) in
  observe run
  = Some (Some 3%positive,
          [EvCtxInit; EvHmacInit (E:=E) [x6b] 1 2;
           EvHmacUpdate [x61; x62] 2; EvHmacUpdate [x61; x62] 2;
           EvHmacUpdate [x61; x62] 2;
           EvHmacFinal 3%positive 1 [x6b; x61] 2; EvCtxCleanup])
  /\ match run with
     | Done _ w' => heap w' !! 3%positive
     | Fault => None
     end = Some (Stringer 6 2 0 [x6b; x61; x3f; x3f]).
Proof. split; reflexivity. Qed.

(** The same call with the output absent and one round: the stringer comes
    from the allocator, at the first free location. *)
Example one_round_fresh_output :
  let E := Toy_ok in
  let run :=
    hmac_digest E (Some 2) (Some 1%positive) (Some 2%positive) None (world3 E) in
  observe run
  = Some (Some 4%positive,
          [EvAlloc 2 (Some 4%positive); EvCtxInit; EvHmacInit (E:=E) [x6b] 1 2;
           EvHmacUpdate [x61; x62] 2;
           EvHmacFinal 4%positive 1 [x6b; x61] 2; EvCtxCleanup])
  /\ match run with
     | Done _ w' => heap w' !! 4%positive
     | Fault => None
     end = Some (Stringer 2 2 2 [x6b; x61]).
Proof. split; reflexivity. Qed.

(** A 4-byte block and an 8-byte digest: too small, nothing is touched. *)
Example supplied_output_too_small :
  let E := Toy_ok in
  hmac_multi_digest E 1 (Some 8)
    (Some 1%positive) (Some 2%positive) (Some 3%positive) (world3 E)
  = Done None (World heap3 [EvLog LogTooSmall]).
Proof. reflexivity. Qed.

(** A key whose length field reads 2^32 + 1: [HMAC_Init_ex_d] is handed the
    length 1. *)
Example key_length_wraps :
  let E := Toy_ok in
  observe
    (hmac_multi_digest E 1 (Some 2) (Some 1%positive) (Some 2%positive) (Some 3%positive)
       (World (<[2%positive := Stringer 0 4294967297 0 [x6b]]> heap3) []))
  = Some (Some 3%positive,
          [EvCtxInit; EvHmacInit (E:=E) [x6b] 1 2; EvHmacUpdate [x61; x62] 2;
           EvHmacFinal 3%positive 1 [x6b; x61] 2; EvCtxCleanup]).
Proof. reflexivity. Qed.

(** ** Calls that meet the hypotheses of the theorems *)

(** C5 on a call with [rounds = 0], an absent digest and an empty input: the
    first violated precondition is the one on the rounds. *)
Lemma C5_validation_order_witness :
  let E := Toy_ok in
  let w : world E := World (<[1%positive := Stringer 0 0 0 []]> heap3) [] in
  let rounds := 0%N in
  let digest : option (digest_t E) := None in
  let s := Some 1%positive in
  let key := Some 2%positive in
  let output := Some 3%positive in
  (valid_ptr (heap w) s = true
   /\ valid_ptr (heap w) key = true
   /\ valid_ptr (heap w) output = true)
  /\ first_violated E (heap w) rounds digest s key output = Some PreRounds
  /\ (forall p,
      first_violated E (heap w) rounds digest s key output = Some p ->
      exists m,
        precondition_of m = Some p
        /\ hmac_multi_digest_nonnull_output E rounds digest s key output w
           = Done None {| heap := heap w; trace := trace w ++ [EvLog m] |}
        /\ count (E:=E) is_crypto [EvLog m] = 0%nat)
  /\ (present_nonempty (heap w) s = false \/ present_nonempty (heap w) key = false ->
      exists m,
        hmac_multi_digest_nonnull_output E rounds digest s key output w
        = Done None {| heap := heap w; trace := trace w ++ [EvLog m] |}).
Proof.
  intros E w rounds digest s key output.
  split; [by vm_compute|]. split; [by vm_compute|].
  apply (C5_validation_order E w rounds digest s key output); by vm_compute.
Defined.

(** C1 as stated fails when the keying call fails: the call passes the five
    validations, and it makes no update and no finalize call, where the
    claim has two updates and one finalize. *)
Lemma C1_counterexample :
  let E := Toy 0 1 1 0 in
  let run :=
    hmac_multi_digest_nonnull_output E 2 (Some 4)
      (Some 1%positive) (Some 2%positive) (Some 3%positive) (world3 E) in
  first_violated E heap3 2 (Some 4) (Some 1%positive) (Some 2%positive) (Some 3%positive)
  = None
  /\ observe run
     = Some (None, [EvCtxInit; EvHmacInit (E:=E) [x6b] 1 4;
                    EvLog LogInitFailed; EvCtxCleanup])
  /\ ~ (exists r w', run = Done r w'
                     /\ count is_update (trace w') = N.to_nat 2
                     /\ count is_final (trace w') = 1%nat).
Proof.
  intros E run. split; [reflexivity|].
  assert (Hobs : observe run
                 = Some (None, [EvCtxInit; EvHmacInit (E:=E) [x6b] 1 4;
                                EvLog LogInitFailed; EvCtxCleanup]))
    by reflexivity.
  split; [exact Hobs|].
  intros (r & w' & Hrun & Hupd & _).
  rewrite Hrun in Hobs. injection Hobs as _ Ht.
  rewrite Ht in Hupd. discriminate Hupd.
Qed.

(** C3 on a fixed 4-byte writable block and a 4-byte digest: the boundary
    where the effective size equals the output size. *)
Lemma C3_capacity_check_witness :
  let E := Toy_ok in
  let w := world3 E in
  let rounds := 1%N in
  let d : digest_t E := 4 in
  let s := Some 1%positive in
  let key := Some 2%positive in
  let lo := 3%positive in
  let bo := Stringer 6 4 0 [x3f; x3f; x3f; x3f] in
  ((1 <= rounds)%N /\ 1 <= digest_size E d
   /\ present_nonempty (heap w) s = true
   /\ present_nonempty (heap w) key = true
   /\ heap w !! lo = Some bo
   /\ writable E bo = true)
  /\
  let run := hmac_multi_digest_nonnull_output E rounds (Some d) s key (Some lo) w in
  let passes := exists r w' evs, run = Done r w' /\ trace w' = trace w ++ EvCtxInit :: evs in
  let fails := run = Done None {| heap := heap w; trace := trace w ++ [EvLog LogTooSmall] |} in
  buffer_size_get E (Some lo) w
  = Done (if st_valid_avail E (st_opts bo) then st_avail bo else st_length bo) w
  /\ effective_size E bo
     = (if st_valid_avail E (st_opts bo) then st_avail bo else st_length bo)
  /\ (digest_size E d <= Z.of_N (effective_size E bo) -> passes)
  /\ (Z.of_N (effective_size E bo) < digest_size E d -> fails)
  /\ (Z.of_N (effective_size E bo) = digest_size E d -> passes)
  /\ (Z.of_N (effective_size E bo) = digest_size E d - 1 -> fails).
Proof.
  intros E w rounds d s key lo bo.
  split; [by vm_compute|].
  apply (C3_capacity_check E w rounds d s key lo bo); by vm_compute.
Defined.

(** C4 on a tracked output whose length field was 4, with a 2-byte digest. *)
Lemma C4_length_field_witness :
  let E := Toy_ok in
  let w := world3 E in
  let rounds := 1%N in
  let digest : option (digest_t E) := Some 2 in
  let s := Some 1%positive in
  let key := Some 2%positive in
  let lo := 3%positive in
  let bo := Stringer 6 4 0 [x3f; x3f; x3f; x3f] in
  (valid_ptr (heap w) s = true
   /\ valid_ptr (heap w) key = true
   /\ heap w !! lo = Some bo)
  /\ exists r w' evs bo',
    hmac_multi_digest_nonnull_output E rounds digest s key (Some lo) w = Done r w'
    /\ trace w' = trace w ++ evs
    /\ heap w' !! lo = Some bo'
    /\ (r = None -> st_length bo' = st_length bo)
    /\ (forall m, EvLog m ∈ evs -> st_length bo' = st_length bo)
    /\ (r <> None ->
        exists d, digest = Some d
          /\ (tracked E bo = true -> Z.of_N (st_length bo') = digest_size E d)
          /\ (tracked E bo = false -> st_length bo' = st_length bo)).
Proof.
  intros E w rounds digest s key lo bo.
  split; [by vm_compute|].
  apply (C4_length_field E w rounds digest s key lo bo); by vm_compute.
Defined.

(** C6 on a call whose second update fails. *)
Lemma C6_context_released_witness :
  let E := Toy 1 0 1 0 in
  let w := world3 E in
  let rounds := 2%N in
  let digest : option (digest_t E) := Some 4 in
  let s := Some 1%positive in
  let key := Some 2%positive in
  let output := Some 3%positive in
  (valid_ptr (heap w) s = true
   /\ valid_ptr (heap w) key = true
   /\ valid_ptr (heap w) output = true)
  /\ exists r w' evs,
    hmac_multi_digest_nonnull_output E rounds digest s key output w = Done r w'
    /\ trace w' = trace w ++ evs
    /\ open_contexts evs = 0
    /\ ((count is_ctx_init evs = 0%nat /\ count is_ctx_cleanup evs = 0%nat)
        \/ exists mid, evs = EvCtxInit :: mid ++ [EvCtxCleanup]
                       /\ count is_ctx_init mid = 0%nat
                       /\ count is_ctx_cleanup mid = 0%nat).
Proof.
  intros E w rounds digest s key output.
  split; [by vm_compute|].
  apply (C6_context_released E w rounds digest s key output); by vm_compute.
Defined.


(** C8 on a call whose finalize reports 5 bytes for a 4-byte digest. *)
Lemma C8_size_mismatch_witness :
  let E := Toy 1 1 1 1 in
  let w := world3 E in
  let rounds := 1%N in
  let d : digest_t E := 4 in
  let s := Some 1%positive in
  let key := Some 2%positive in
  let output := Some 3%positive in
  (valid_ptr (heap w) s = true
   /\ valid_ptr (heap w) key = true
   /\ valid_ptr (heap w) output = true)
  /\ exists r w' evs,
    hmac_multi_digest_nonnull_output E rounds (Some d) s key output w = Done r w'
    /\ trace w' = trace w ++ evs
    /\ forall dst st wr rep,
         EvHmacFinal dst st wr rep ∈ evs ->
         uint_t_of rep <> digest_size E d ->
         r = None /\ (st = 1 -> EvLog LogSizeMismatch ∈ evs).
Proof.
  intros E w rounds d s key output.
  split; [by vm_compute|].
  apply (C8_size_mismatch E w rounds d s key output); by vm_compute.
Defined.

(** C9 as stated fails: a call with [rounds = 0] (an invalid argument) and a
    call on a 4-byte output with an 8-byte digest (a buffer that is too
    small) return the same value, so no reading of the returned value tells
    the caller which of the two happened. *)
Lemma C9_counterexample :
  ~ exists classify : ptr -> log_msg,
      forall rounds digest s key output r w' m,
        hmac_multi_digest Toy_ok rounds digest s key output (world3 Toy_ok) = Done r w' ->
        EvLog m ∈ trace w' ->
        classify r = m.
Proof.
  intros [classify H].
  assert (H1 : classify None = LogRounds).
  { apply (H 0%N (Some 4) (Some 1%positive) (Some 2%positive) (Some 3%positive)
             None (World heap3 [EvLog LogRounds])).
    - reflexivity.
    - apply elem_of_cons. by left. }
  assert (H2 : classify None = LogTooSmall).
  { apply (H 1%N (Some 8) (Some 1%positive) (Some 2%positive) (Some 3%positive)
             None (World heap3 [EvLog LogTooSmall])).
    - reflexivity.
    - apply elem_of_cons. by left. }
  congruence.
Qed.

(** C10 on a call whose finalize reports 5 bytes for a 4-byte digest: the
    call fails and the data of the output is overwritten. *)
Lemma C10_failure_frame_witness :
  let E := Toy 1 1 1 1 in
  let w := world3 E in
  let rounds := 1%N in
  let digest : option (digest_t E) := Some 4 in
  let s := Some 1%positive in
  let key := Some 2%positive in
  let lo := 3%positive in
  let bo := Stringer 6 4 0 [x3f; x3f; x3f; x3f] in
  (valid_ptr (heap w) s = true
   /\ valid_ptr (heap w) key = true
   /\ heap w !! lo = Some bo)
  /\ exists r w' evs,
    hmac_multi_digest_nonnull_output E rounds digest s key (Some lo) w = Done r w'
    /\ trace w' = trace w ++ evs
    /\ (EvLog LogSizeMismatch ∈ evs ->
        r = None
        /\ exists wr rep,
             EvHmacFinal lo 1 wr rep ∈ evs
             /\ heap w' !! lo = Some (set_data bo (write_at0 wr (st_data bo))))
    /\ (r = None ->
        exists bo', heap w' !! lo = Some bo' /\ st_length bo' = st_length bo)
    /\ (r = None -> count is_final evs = 0%nat -> heap w' = heap w).
Proof.
  intros E w rounds digest s key lo bo.
  split; [by vm_compute|].
  apply (C10_failure_frame E w rounds digest s key lo bo); by vm_compute.
Defined.

(** The size-mismatch run of C10, evaluated: the call returns [NULL], the
    length field still reads 4, and the data that was "????" now reads
    "kab" followed by a zero byte. *)
Example size_mismatch_overwrites_data :
  let E := Toy 1 1 1 1 in
  let run :=
    hmac_multi_digest_nonnull_output E 1 (Some 4)
      (Some 1%positive) (Some 2%positive) (Some 3%positive) (world3 E) in
  observe run
  = Some (None, [EvCtxInit; EvHmacInit (E:=E) [x6b] 1 4; EvHmacUpdate [x61; x62] 2;
                 EvHmacFinal 3%positive 1 [x6b; x61; x62; x00] 5;
                 EvLog LogSizeMismatch; EvCtxCleanup])
  /\ match run with
     | Done _ w' => heap w' !! 3%positive
     | Fault => None
     end = Some (Stringer 6 4 0 [x6b; x61; x62; x00]).
Proof. split; reflexivity. Qed.

(** * More of hmac.c: the public entry, the loop and the wrappers *)

Section HmacMore.

Context (E : Externals).

Implicit Types (w : world E) (h : gmap loc stringer_t) (l : loc) (b : stringer_t).

Lemma count_none f (evs : list (event E)) :
  (forall ev, ev ∈ evs -> f ev = false) -> count f evs = 0%nat.
Proof.
  induction evs as [|ev evs IH]; intros H; [done|].
  unfold count, only in *. simpl.
  rewrite (H ev) by (apply elem_of_cons; by left).
  apply IH. intros ev' Hev'. apply H, elem_of_cons. by right.
Qed.

Lemma count_cons f (ev : event E) evs :
  count f (ev :: evs) = ((if f ev then 1 else 0) + count f evs)%nat.
Proof. unfold count, only. simpl. by destruct (f ev). Qed.

(** What [first_violated] = [None] says of the four preconditions that do
    not look at the output. *)
Lemma first_violated_None_args h rounds digest s key output :
  first_violated E h rounds digest s key output = None ->
  (1 <= rounds)%N /\ digest_resolves E digest = true
  /\ present_nonempty h s = true /\ present_nonempty h key = true.
Proof.
  unfold first_violated.
  destruct (N.leb_spec 1 rounds); [|done].
  destruct (digest_resolves E digest); [|done].
  destruct (present_nonempty h s); [|done].
  by destruct (present_nonempty h key).
Qed.

Lemma present_nonempty_insert h l b p :
  h !! l = None -> valid_ptr h p = true ->
  present_nonempty (<[l := b]> h) p = present_nonempty h p.
Proof.
  intros Hl. destruct p as [l'|]; simpl; [|done].
  destruct (decide (l = l')) as [->|Hne].
  - by rewrite Hl.
  - by rewrite lookup_insert_ne.
Qed.

Lemma lookup_insert_fresh h l b l' b' :
  h !! l = None -> valid_ptr h (Some l') = true ->
  <[l := b]> h !! l' = Some b' -> h !! l' = Some b'.
Proof.
  intros Hl Hv. simpl in Hv.
  destruct (decide (l = l')) as [->|Hne]; [by rewrite Hl in Hv|].
  by rewrite lookup_insert_ne.
Qed.

(** The four ways of the auto-allocation path. *)
Lemma null_output_cases w rounds digest s key :
  valid_ptr (heap w) s = true ->
  valid_ptr (heap w) key = true ->
  let n := size_t_of (int_t_of (EVP_MD_size_d E digest)) in
  let l := fresh (dom (heap w)) in
  let h0 b0 := <[l := b0]> (heap w) in
  (st_alloc E n = None
   /\ hmac_multi_digest_null_output E rounds digest s key w
      = Done None {| heap := heap w;
                     trace := trace w ++ [EvAlloc n None; EvLog LogAllocFailed] |})
  \/ (exists b0 p m,
        st_alloc E n = Some b0
        /\ first_violated E (h0 b0) rounds digest s key (Some l) = Some p
        /\ precondition_of m = Some p
        /\ hmac_multi_digest_null_output E rounds digest s key w
           = Done None {| heap := heap w;
                          trace := trace w ++ [EvAlloc n (Some l); EvLog m; EvFree l] |})
  \/ (exists b0 d ls bs lk bk e,
        st_alloc E n = Some b0
        /\ first_violated E (h0 b0) rounds digest s key (Some l) = None
        /\ digest = Some d /\ s = Some ls /\ key = Some lk
        /\ heap w !! ls = Some bs /\ heap w !! lk = Some bk
        /\ end_ok E rounds d e
        /\ ((end_ret l e = None
             /\ hmac_multi_digest_null_output E rounds digest s key w
                = Done None
                    {| heap := heap w;
                       trace := trace w ++ EvAlloc n (Some l)
                                  :: end_events E rounds d bs bk l e ++ [EvFree l] |})
            \/ (end_ret l e = Some l
                /\ hmac_multi_digest_null_output E rounds digest s key w
                   = Done (Some l)
                       {| heap := <[l := end_output E d b0 e]> (heap w);
                          trace := trace w ++ EvAlloc n (Some l)
                                     :: end_events E rounds d bs bk l e |}))).
Proof.
  intros Vs Vk n l h0.
  pose proof (fresh_loc_free (heap w)) as Hl. fold l in Hl.
  unfold hmac_multi_digest_null_output. fold n.
  assert (Halloc : st_alloc_at E n w
                   = match st_alloc E n with
                     | None => Done None {| heap := heap w; trace := trace w ++ [EvAlloc n None] |}
                     | Some b =>
                         Done (Some l) {| heap := <[l := b]> (heap w);
                                          trace := trace w ++ [EvAlloc n (Some l)] |}
                     end) by reflexivity.
  destruct (st_alloc E n) as [b0|]; rewrite (bind_done _ _ _ _ _ _ Halloc).
  2:{ left. split; [done|].
      unfold log, error, ret. rewrite emit_done. simpl. by rewrite <- app_assoc. }
  right.
  set (w0 := {| heap := <[l := b0]> (heap w); trace := trace w ++ [EvAlloc n (Some l)] |}).
  destruct (nonnull_run E w0 rounds digest s key (Some l))
    as [(p & m & Hv & Hm & Hrun) | (d & ls & bs & lk & bk & lo & bo & e & Hv & -> & -> & -> & [= <-] & Hs & Hk & Ho & He & Hrun)].
  { by apply valid_ptr_insert. }
  { by apply valid_ptr_insert. }
  { simpl. by rewrite lookup_insert_eq. }
  - left. exists b0, p, m. split; [done|]. split; [exact Hv|]. split; [done|].
    rewrite (bind_done _ _ _ _ _ _ Hrun).
    unfold st_free, bind, error, ret. simpl. rewrite lookup_insert_eq. simpl.
    rewrite delete_insert_id by done. by rewrite <- !app_assoc.
  - right. simpl in Hs, Hk, Ho. rewrite lookup_insert_eq in Ho. injection Ho as <-.
    apply (lookup_insert_fresh _ _ _ _ _ Hl Vs) in Hs.
    apply (lookup_insert_fresh _ _ _ _ _ Hl Vk) in Hk.
    exists b0, d, ls, bs, lk, bk, e.
    do 7 (split; [done|]). split; [done|].
    rewrite (bind_done _ _ _ _ _ _ Hrun). subst w0.
    destruct (end_ret l e) as [x|] eqn:Hret.
    + right. assert (x = l) as -> by (destruct e; simpl in Hret; congruence).
      split; [done|]. unfold ret. cbn [heap trace].
      rewrite insert_insert_eq. by rewrite <- app_assoc.
    + left. split; [done|].
      unfold st_free, bind, error, ret. cbn [heap trace].
      rewrite lookup_insert_eq. cbn [heap trace].
      rewrite insert_insert_eq, delete_insert_id by done.
      by rewrite <- !app_assoc.
Qed.

(** ** The public entry with a supplied output *)

(** X1. With a supplied output, [hmac_multi_digest] returns [NULL] or the
    very pointer it was given; it never calls the allocator and never frees
    anything, whatever the outcome, and the set of live stringers is the
    same afterwards. *)
Theorem supplied_output_ownership w rounds digest s key lo :
  valid_ptr (heap w) s = true ->
  valid_ptr (heap w) key = true ->
  valid_ptr (heap w) (Some lo) = true ->
  exists r w' evs,
    hmac_multi_digest E rounds digest s key (Some lo) w = Done r w'
    /\ trace w' = trace w ++ evs
    /\ (r = None \/ r = Some lo)
    /\ count is_alloc evs = 0%nat
    /\ count is_free evs = 0%nat
    /\ dom (heap w') = dom (heap w).
Proof.
  intros Vs Vk Vo. simpl in Vo.
  destruct (heap w !! lo) as [bo|] eqn:Ho; [|done].
  destruct (nonnull_summary E w rounds digest s key lo bo Vs Vk Ho)
    as (r & b1 & inner & Hrun & Hr & _ & Hevs).
  eexists _, _, _. split; [exact Hrun|]. cbn [heap trace].
  split; [reflexivity|]. split; [done|].
  split; [|split].
  - apply count_none. intros ev Hev.
    destruct (Hevs ev Hev) as [H|H]; by destruct ev.
  - apply count_none. intros ev Hev.
    destruct (Hevs ev Hev) as [H|H]; by destruct ev.
  - apply dom_insert_lookup_L. by rewrite Ho.
Qed.

(** X2. When what finalize stored fits in the data region of the supplied
    output, the call changes no other stringer (the input and the key
    included, unless one of them is the output; data regions do not overlap
    in this model), and of the output it changes neither the option word,
    nor the available size, nor the length of the data region. *)
Theorem supplied_output_frame w rounds digest s key lo bo r w' :
  valid_ptr (heap w) s = true ->
  valid_ptr (heap w) key = true ->
  heap w !! lo = Some bo ->
  hmac_multi_digest E rounds digest s key (Some lo) w = Done r w' ->
  (forall evs dst st wr rep,
      trace w' = trace w ++ evs ->
      EvHmacFinal dst st wr rep ∈ evs ->
      (length wr <= length (st_data bo))%nat) ->
  exists bo',
    heap w' !! lo = Some bo'
    /\ st_opts bo' = st_opts bo
    /\ st_avail bo' = st_avail bo
    /\ length (st_data bo') = length (st_data bo)
    /\ forall l', l' <> lo -> heap w' !! l' = heap w !! l'.
Proof.
  intros Vs Vk Ho. simpl hmac_multi_digest.
  destruct (nonnull_run E w rounds digest s key (Some lo) Vs Vk (valid_ptr_intro _ _ _ Ho))
    as [(p & m & Hv & Hm & Hrun) | (d & ls & bs & lk & bk & lo' & bo1 & e & Hv & -> & -> & -> & [= <-] & Hs & Hk & Ho' & He & Hrun)];
    rewrite Hrun; intros Heq Hfit.
  - exists bo. by injection Heq as _ <-.
  - rewrite Ho in Ho'. injection Ho' as <-.
    assert (Hw' : w' = {| heap := <[lo := end_output E d bo e]> (heap w);
                          trace := trace w ++ end_events E rounds d bs bk lo e |})
      by congruence.
    subst w'. clear Heq. cbn [heap trace] in *.
    assert (Hlen : forall st wr rep,
               EvHmacFinal lo st wr rep ∈ end_events E rounds d bs bk lo e ->
               length (write_at0 wr (st_data bo)) = length (st_data bo)).
    { intros st wr rep Hin.
      pose proof (Hfit _ lo st wr rep eq_refl Hin) as Hfit'.
      unfold write_at0. rewrite length_app, length_drop. lia. }
    assert (Hin : forall ev, ev ∈ end_tail E lo e ->
                             ev ∈ end_events E rounds d bs bk lo e).
    { intros ev Hev. unfold end_events. do 2 (apply elem_of_app; right). done. }
    exists (end_output E d bo e). split; [apply lookup_insert_eq|].
    split; [|split; [|split]].
    + destruct e; try done. simpl. by destruct (tracked E bo).
    + destruct e; try done. simpl. by destruct (tracked E bo).
    + destruct e as [|k|st wr rep|wr rep|wr rep]; try done; simpl.
      * apply (Hlen st wr rep), Hin, elem_of_cons. by left.
      * apply (Hlen 1 wr rep), Hin, elem_of_cons. by left.
      * transitivity (length (write_at0 wr (st_data bo)));
          [by destruct (tracked E bo)|].
        apply (Hlen 1 wr rep), Hin, elem_of_cons. by left.
    + intros l' Hne. by rewrite lookup_insert_ne.
Qed.

(** ** The public entry on both paths *)

Lemma invalid_arguments_run w rounds digest s key output :
  valid_ptr (heap w) s = true ->
  valid_ptr (heap w) key = true ->
  valid_ptr (heap w) output = true ->
  (rounds < 1)%N \/ digest_resolves E digest = false
  \/ present_nonempty (heap w) s = false \/ present_nonempty (heap w) key = false ->
  exists w' evs,
    hmac_multi_digest E rounds digest s key output w = Done None w'
    /\ trace w' = trace w ++ evs
    /\ heap w' = heap w
    /\ count is_crypto evs = 0%nat.
Proof.
  intros Vs Vk Vo Hbad.
  assert (Hnot : forall h o,
             present_nonempty h s = present_nonempty (heap w) s ->
             present_nonempty h key = present_nonempty (heap w) key ->
             first_violated E h rounds digest s key o <> None).
  { intros h o Hes Hek Hv.
    destruct (first_violated_None_args _ _ _ _ _ _ Hv) as (Hr & Hd & Hs & Hk).
    rewrite Hes in Hs. rewrite Hek in Hk.
    destruct Hbad as [|[|[|]]]; [lia|congruence..]. }
  destruct output as [lo|]; simpl hmac_multi_digest.
  - destruct (nonnull_run E w rounds digest s key (Some lo) Vs Vk Vo)
      as [(p & m & Hv & Hm & Hrun) | (d & ls & bs & lk & bk & lo' & bo1 & e & Hv & _)].
    + eexists _, [EvLog m]. split; [exact Hrun|]. done.
    + by destruct (Hnot (heap w) (Some lo)).
  - pose proof (fresh_loc_free (heap w)) as Hl.
    destruct (null_output_cases w rounds digest s key Vs Vk)
      as [[_ Hrun] | [(b0 & p & m & _ & _ & _ & Hrun) | (b0 & d & ls & bs & lk & bk & e & _ & Hv & _)]].
    + eexists _, _. split; [exact Hrun|]. done.
    + eexists _, _. split; [exact Hrun|]. done.
    + exfalso. revert Hv. apply Hnot; by apply present_nonempty_insert.
Qed.

(** X3. A call whose rounds are 0, whose digest is absent or has no positive
    size, or whose input or key is absent or empty returns [NULL] on both
    paths, makes no call to the HMAC primitive, and leaves the heap exactly
    as it was: on the auto-allocation path what was allocated is freed. *)
Theorem invalid_arguments_rejected w rounds digest s key output :
  valid_ptr (heap w) s = true ->
  valid_ptr (heap w) key = true ->
  valid_ptr (heap w) output = true ->
  (rounds < 1)%N \/ digest_resolves E digest = false
  \/ present_nonempty (heap w) s = false \/ present_nonempty (heap w) key = false ->
  exists w' evs,
    hmac_multi_digest E rounds digest s key output w = Done None w'
    /\ trace w' = trace w ++ evs
    /\ heap w' = heap w
    /\ count is_crypto evs = 0%nat.
Proof. apply invalid_arguments_run. Qed.

(** Counting in the trace of a protocol run. *)
Lemma count_log_end_events rounds d bs bk lo e :
  count is_log (end_events E rounds d bs bk lo e)
  = match end_ret lo e with Some _ => 0%nat | None => 1%nat end.
Proof. rewrite count_end_events, count_repeat_false by done. by destruct e. Qed.

Lemma count_ctx_end_events rounds d bs bk lo e :
  count is_ctx_init (end_events E rounds d bs bk lo e) = 1%nat
  /\ count is_ctx_cleanup (end_events E rounds d bs bk lo e) = 1%nat.
Proof. rewrite !count_end_events, !count_repeat_false by done. by destruct e. Qed.

Lemma count_alloc_end_events rounds d bs bk lo e :
  count is_alloc (end_events E rounds d bs bk lo e) = 0%nat
  /\ count is_free (end_events E rounds d bs bk lo e) = 0%nat.
Proof. rewrite !count_end_events, !count_repeat_false by done. by destruct e. Qed.

Lemma free_not_in_end_events l' rounds d bs bk lo e :
  EvFree l' ∉ end_events E rounds d bs bk lo e.
Proof.
  intros Hin. apply elem_of_end_events in Hin.
  destruct Hin as [|[|[|Hin]]]; try done.
  destruct e; simpl in Hin; in_cases Hin.
Qed.

(** X4. Every call that returns [NULL] has logged exactly one message, and
    a call that returns a stringer has logged none. *)
Theorem one_message_per_failure w rounds digest s key output :
  valid_ptr (heap w) s = true ->
  valid_ptr (heap w) key = true ->
  valid_ptr (heap w) output = true ->
  exists r w' evs,
    hmac_multi_digest E rounds digest s key output w = Done r w'
    /\ trace w' = trace w ++ evs
    /\ count is_log evs = match r with Some _ => 0%nat | None => 1%nat end.
Proof.
  intros Vs Vk Vo. destruct output as [lo|]; simpl hmac_multi_digest.
  - destruct (nonnull_run E w rounds digest s key (Some lo) Vs Vk Vo)
      as [(p & m & Hv & Hm & Hrun) | (d & ls & bs & lk & bk & lo' & bo & e & Hv & -> & -> & -> & [= <-] & Hs & Hk & Ho & He & Hrun)].
    + eexists _, _, [EvLog m]. split; [exact Hrun|]. done.
    + eexists _, _, _. split; [exact Hrun|]. split; [reflexivity|].
      apply count_log_end_events.
  - destruct (null_output_cases w rounds digest s key Vs Vk)
      as [[_ Hrun] | [(b0 & p & m & _ & _ & _ & Hrun) | (b0 & d & ls & bs & lk & bk & e & _ & _ & _ & _ & _ & _ & _ & _ & [[Hret Hrun] | [Hret Hrun]])]];
      (eexists _, _, _; split; [exact Hrun|]; split; [reflexivity|]); try done.
    + rewrite count_cons, count_app, count_log_end_events, Hret. done.
    + rewrite count_cons, count_log_end_events, Hret. done.
Qed.

(** X5. At the public entry too, on both paths, no context is left open and
    at most one is ever opened; and when the call frees the stringer it
    allocated, that is the last thing it does, with no context open. *)
Theorem public_entry_context_balanced w rounds digest s key output :
  valid_ptr (heap w) s = true ->
  valid_ptr (heap w) key = true ->
  valid_ptr (heap w) output = true ->
  exists r w' evs,
    hmac_multi_digest E rounds digest s key output w = Done r w'
    /\ trace w' = trace w ++ evs
    /\ open_contexts evs = 0
    /\ (count is_ctx_init evs <= 1)%nat
    /\ forall l', EvFree l' ∈ evs ->
         exists pre, evs = pre ++ [EvFree l'] /\ open_contexts pre = 0.
Proof.
  intros Vs Vk Vo. destruct output as [lo|]; simpl hmac_multi_digest.
  - destruct (nonnull_run E w rounds digest s key (Some lo) Vs Vk Vo)
      as [(p & m & Hv & Hm & Hrun) | (d & ls & bs & lk & bk & lo' & bo & e & Hv & -> & -> & -> & [= <-] & Hs & Hk & Ho & He & Hrun)].
    + eexists _, _, [EvLog m]. split; [exact Hrun|]. split; [done|].
      split; [done|]. split; [unfold count, only; simpl; lia|].
      intros l' Hin. in_cases Hin.
    + eexists _, _, _. split; [exact Hrun|]. split; [reflexivity|].
      destruct (count_ctx_end_events rounds d bs bk lo e) as [Hi Hc].
      unfold open_contexts. rewrite Hi, Hc. split; [done|]. split; [lia|].
      intros l' Hin. by apply free_not_in_end_events in Hin.
  - destruct (null_output_cases w rounds digest s key Vs Vk)
      as [[_ Hrun] | [(b0 & p & m & _ & _ & _ & Hrun) | (b0 & d & ls & bs & lk & bk & e & _ & _ & _ & _ & _ & _ & _ & _ & [[Hret Hrun] | [Hret Hrun]])]];
      (eexists _, _, _; split; [exact Hrun|]; split; [reflexivity|]).
    + split; [done|]. split; [unfold count, only; simpl; lia|].
      intros l' Hin. in_cases Hin.
    + split; [done|]. split; [unfold count, only; simpl; lia|].
      intros l' Hin. in_cases Hin. injection Hin as ->.
      eexists [_; _]. split; [reflexivity|]. done.
    + destruct (count_ctx_end_events rounds d bs bk (fresh (dom (heap w))) e) as [Hi Hc].
      unfold open_contexts.
      rewrite 2!count_cons, 2!count_app, Hi, Hc.
      split; [done|]. split; [unfold count, only; simpl; lia|].
      intros l' Hin. apply elem_of_cons in Hin. destruct Hin as [|Hin]; [done|].
      apply elem_of_app in Hin. destruct Hin as [Hin|Hin];
        [by apply free_not_in_end_events in Hin|].
      in_cases Hin. injection Hin as ->.
      eexists (_ :: _). split; [reflexivity|].
      rewrite 2!count_cons, Hi, Hc. done.
    + destruct (count_ctx_end_events rounds d bs bk (fresh (dom (heap w))) e) as [Hi Hc].
      unfold open_contexts. rewrite 2!count_cons, Hi, Hc.
      split; [done|]. split; [simpl; lia|].
      intros l' Hin. apply elem_of_cons in Hin. destruct Hin as [|Hin]; [done|].
      by apply free_not_in_end_events in Hin.
Qed.

(** X7. On the auto-allocation path the allocator is called exactly once;
    the call frees at most once, only the location this very call got from
    the allocator, and only when it returns [NULL].  When it returns a
    stringer, that is the fresh location, nothing was freed, and the live
    stringers are those of before and the fresh one. *)
Theorem allocator_accounting w rounds digest s key :
  valid_ptr (heap w) s = true ->
  valid_ptr (heap w) key = true ->
  let l := fresh (dom (heap w)) in
  exists r w' evs,
    hmac_multi_digest E rounds digest s key None w = Done r w'
    /\ trace w' = trace w ++ evs
    /\ count is_alloc evs = 1%nat
    /\ (count is_free evs <= 1)%nat
    /\ (forall l', EvFree l' ∈ evs ->
        l' = l /\ r = None /\ exists n, EvAlloc n (Some l) ∈ evs)
    /\ (r = None -> dom (heap w') = dom (heap w))
    /\ (r <> None ->
        r = Some l /\ (l ∉ dom (heap w))
        /\ dom (heap w') = {[l]} ∪ dom (heap w)
        /\ count is_free evs = 0%nat).
Proof.
  intros Vs Vk l. simpl hmac_multi_digest.
  destruct (null_output_cases w rounds digest s key Vs Vk)
    as [[_ Hrun] | [(b0 & p & m & _ & _ & _ & Hrun) | (b0 & d & ls & bs & lk & bk & e & _ & _ & _ & _ & _ & _ & _ & _ & [[Hret Hrun] | [Hret Hrun]])]];
    fold l in Hrun;
    (eexists _, _, _; split; [exact Hrun|]; split; [reflexivity|]); cbn [heap trace].
  - split; [done|]. split; [unfold count, only; simpl; lia|].
    split; [|done]. intros l' Hin. in_cases Hin.
  - split; [done|]. split; [unfold count, only; simpl; lia|].
    split; [|done]. intros l' Hin. in_cases Hin. injection Hin as ->.
    split; [done|]. split; [done|]. eexists. apply elem_of_cons. by left.
  - destruct (count_alloc_end_events rounds d bs bk l e) as [Ha Hf].
    rewrite 2!count_cons, 2!count_app, Ha, Hf.
    split; [done|]. split; [unfold count, only; simpl; lia|].
    split; [|done]. intros l' Hin.
    apply elem_of_cons in Hin. destruct Hin as [|Hin]; [done|].
    apply elem_of_app in Hin. destruct Hin as [Hin|Hin];
      [by apply free_not_in_end_events in Hin|].
    in_cases Hin. injection Hin as ->.
    split; [done|]. split; [done|]. eexists. apply elem_of_cons. by left.
  - destruct (count_alloc_end_events rounds d bs bk l e) as [Ha Hf].
    rewrite 2!count_cons, Ha, Hf.
    split; [done|]. split; [simpl; lia|].
    split.
    { intros l' Hin. apply elem_of_cons in Hin. destruct Hin as [|Hin]; [done|].
      by apply free_not_in_end_events in Hin. }
    split; [done|]. intros _. split; [done|].
    split; [apply is_fresh|]. split; [apply dom_insert_L|done].
Qed.

(** ** The update loop *)

(** X9. Running [n + m] rounds of the update loop is running [n] rounds
    and, when all of them succeeded, [m] more on the context they left; when
    one of the first [n] fails, the [m] others are not run. *)
Theorem update_rounds_split n m : forall ctx s w,
  update_rounds E (n + m) ctx s w
  = match update_rounds E n ctx s w with
    | Done (true, ctx') w' => update_rounds E m ctx' s w'
    | other => other
    end.
Proof.
  induction n as [|n IH]; intros ctx s w; [done|].
  cbn [Nat.add update_rounds].
  unfold st_data_get, st_length_get, bind, load, ret, log, emit.
  destruct s as [l|]; [|done].
  destruct (heap w !! l) as [b|] eqn:Hl; [|done].
  cbn [heap trace]. rewrite Hl.
  destruct (HMAC_Update_d E ctx (st_data b) (st_length b)) as [r ctx1].
  destruct (r =? 1); cbn [negb]; [|done].
  apply IH.
Qed.

(** ** What a successful call guarantees *)

Lemma protocol_end_of_success rounds d bs bk wr rep :
  protocol_end_of E rounds d bs bk = EndSuccess wr rep ->
  fst (keying E d bk) = 1
  /\ (forall k, (k < N.to_nat rounds)%nat ->
                update_status E (snd (keying E d bk)) bs k = 1)
  /\ (exists c, HMAC_Final_d E (fed E (N.to_nat rounds) (snd (keying E d bk)) bs)
                = (1, wr, rep, c))
  /\ uint_t_of rep = digest_size E d.
Proof.
  unfold protocol_end_of.
  destruct (Z.eqb_spec (fst (keying E d bk)) 1) as [H1|]; cbn [negb]; [|done].
  destruct (first_failed E _ _ bs) as [j|] eqn:Hf; [done|].
  pose proof (proj1 (first_failed_None E _ _ _) Hf) as Hok.
  destruct (HMAC_Final_d E _) as [[[st wr'] rep'] c].
  destruct (Z.eqb_spec st 1) as [->|]; cbn [negb]; [|done].
  destruct (Z.eqb_spec (uint_t_of rep') (digest_size E d)); cbn [negb]; [|done].
  intros [= <- <-]. eauto.
Qed.

(** X10. A call with a supplied output that returns a stringer returns the
    output; it passed the five validations; the keying call, every one of
    the [rounds] update calls and finalize answered 1, and finalize reported
    the digest's size; and the call made exactly these calls: open, key with
    the bytes of the key and its length handed over as an [int] (the length
    itself when it is below 2^31), [rounds] updates each on the whole input,
    finalize on the output, release. *)
Theorem success_means_full_protocol w rounds digest s key lo l' w' :
  valid_ptr (heap w) s = true ->
  valid_ptr (heap w) key = true ->
  valid_ptr (heap w) (Some lo) = true ->
  hmac_multi_digest E rounds digest s key (Some lo) w = Done (Some l') w' ->
  l' = lo
  /\ first_violated E (heap w) rounds digest s key (Some lo) = None
  /\ exists d ls bs lk bk wr rep c,
       digest = Some d /\ s = Some ls /\ key = Some lk
       /\ heap w !! ls = Some bs /\ heap w !! lk = Some bk
       /\ fst (keying E d bk) = 1
       /\ (forall k, (k < N.to_nat rounds)%nat ->
                     update_status E (snd (keying E d bk)) bs k = 1)
       /\ HMAC_Final_d E (fed E (N.to_nat rounds) (snd (keying E d bk)) bs)
          = (1, wr, rep, c)
       /\ uint_t_of rep = digest_size E d
       /\ (Z.of_N (st_length bk) < 2 ^ 31 ->
           int_of_size_t (st_length bk) = Z.of_N (st_length bk))
       /\ trace w'
          = trace w
            ++ [EvCtxInit;
                EvHmacInit (st_data bk) (int_of_size_t (st_length bk)) d]
            ++ repeat (EvHmacUpdate (st_data bs) (st_length bs)) (N.to_nat rounds)
            ++ [EvHmacFinal lo 1 wr rep; EvCtxCleanup].
Proof.
  intros Vs Vk Vo. simpl hmac_multi_digest.
  destruct (first_violated E (heap w) rounds digest s key (Some lo)) as [p|] eqn:Hv.
  { destruct (nonnull_rejected E w rounds digest s key (Some lo) p Vs Vk Vo Hv)
      as (m & _ & Hrun). by rewrite Hrun. }
  destruct (first_violated_None _ _ _ _ _ _ _ Hv)
    as (Hr & d & ls & bs & lk & bk & lo' & bo & -> & -> & -> & [= <-] & Hd & Hs & Hbs & Hk & Hbk & Ho & Hw & Hsz).
  rewrite (nonnull_protocol_exact E w rounds d ls bs lk bk lo bo
             Hr Hd Hs Hbs Hk Hbk Ho Hw Hsz).
  destruct (protocol_end_of E rounds d bs bk) as [| | | |wr rep] eqn:He; try done.
  apply protocol_end_of_success in He. destruct He as (H1 & Hok & [c HF] & Hrep).
  intros [= <- <-]. split; [done|]. split; [done|].
  exists d, ls, bs, lk, bk, wr, rep, c.
  do 9 (split; [done|]). split; [apply int_of_size_t_small|]. done.
Qed.

(** X6. A call on the auto-allocation path that returns a stringer returns
    the fresh location.  The allocator was asked for exactly the digest's
    size; the stringer it gave was writable and large enough; and what the
    caller gets is that stringer with the bytes of finalize at offset 0 of
    its data, its length set to the digest's size when it is TRACKED and
    kept otherwise, its option word and available size as the allocator
    made them. *)
Theorem fresh_output_contents w rounds digest s key l' w' :
  valid_ptr (heap w) s = true ->
  valid_ptr (heap w) key = true ->
  hmac_multi_digest E rounds digest s key None w = Done (Some l') w' ->
  exists b0 d wr rep,
    digest = Some d
    /\ st_alloc E (size_t_of (digest_size E d)) = Some b0
    /\ Z.of_N (size_t_of (digest_size E d)) = digest_size E d
    /\ l' = fresh (dom (heap w))
    /\ writable E b0 = true
    /\ digest_size E d <= Z.of_N (effective_size E b0)
    /\ uint_t_of rep = digest_size E d
    /\ EvHmacFinal l' 1 wr rep ∈ trace w'
    /\ heap w' !! l'
       = Some {| st_opts := st_opts b0;
                 st_length := if tracked E b0 then size_t_of (digest_size E d)
                              else st_length b0;
                 st_avail := st_avail b0;
                 st_data := write_at0 wr (st_data b0) |}.
Proof.
  intros Vs Vk. simpl hmac_multi_digest.
  destruct (null_output_cases w rounds digest s key Vs Vk)
    as [[_ Hrun] | [(b0 & p & m & _ & _ & _ & Hrun) | (b0 & d & ls & bs & lk & bk & e & Ha & Hv & -> & _ & _ & _ & _ & He & [[Hret Hrun] | [Hret Hrun]])]];
    rewrite Hrun; try done.
  intros [= <- <-].
  destruct e as [| | | |wr rep]; try done.
  destruct (first_violated_None _ _ _ _ _ _ _ Hv)
    as (_ & d' & _ & _ & _ & _ & lo & bo & [= <-] & _ & _ & [= <-] & Hd & _ & _ & _ & _ & Ho & Hw & Hsz).
  rewrite lookup_insert_eq in Ho. injection Ho as <-.
  destruct (digest_size_fits E d Hd) as [_ Hz].
  exists b0, d, wr, rep. split; [done|]. split; [exact Ha|].
  do 5 (split; [done|]). cbn [heap trace]. split.
  - apply elem_of_app. right. apply elem_of_cons. right.
    unfold end_events. do 2 (apply elem_of_app; right).
    apply elem_of_cons. by left.
  - rewrite lookup_insert_eq. simpl. by destruct (tracked E b0).
Qed.

Lemma end_output_success d bo wr rep :
  st_opts (end_output E d bo (EndSuccess wr rep)) = st_opts bo
  /\ st_avail (end_output E d bo (EndSuccess wr rep)) = st_avail bo
  /\ st_length (end_output E d bo (EndSuccess wr rep))
     = (if tracked E bo then size_t_of (digest_size E d) else st_length bo).
Proof. simpl. by destruct (tracked E bo). Qed.

Lemma present_nonempty_insert_same h lo bo bo' l b :
  h !! lo = Some bo -> h !! l = Some b -> st_length b <> 0%N ->
  (st_length bo <> 0%N -> st_length bo' <> 0%N) ->
  present_nonempty (<[lo := bo']> h) (Some l) = true.
Proof.
  intros Ho Hl Hb Hlen.
  destruct (decide (lo = l)) as [->|Hne].
  - rewrite Ho in Hl. injection Hl as <-.
    eapply present_nonempty_intro; [apply lookup_insert_eq|auto].
  - eapply present_nonempty_intro; [|exact Hb]. by rewrite lookup_insert_ne.
Qed.

(** X11. After a call with a supplied output that returned a stringer, the
    same call passes the five validations again on the heap it left, also
    when the output is the input or the key.  When the output is TRACKED it
    is non-empty afterwards; and when, besides, AVAILABLE is not set, its
    effective size has become exactly the digest's size. *)
Theorem success_keeps_call_valid w rounds digest s key lo l' w' :
  valid_ptr (heap w) s = true ->
  valid_ptr (heap w) key = true ->
  valid_ptr (heap w) (Some lo) = true ->
  hmac_multi_digest E rounds digest s key (Some lo) w = Done (Some l') w' ->
  first_violated E (heap w') rounds digest s key (Some lo) = None
  /\ exists d bo bo',
       digest = Some d /\ heap w !! lo = Some bo /\ heap w' !! lo = Some bo'
       /\ (tracked E bo = true ->
           present_nonempty (heap w') (Some lo) = true
           /\ (st_valid_avail E (st_opts bo) = false ->
               Z.of_N (effective_size E bo') = digest_size E d)).
Proof.
  intros Vs Vk Vo. simpl hmac_multi_digest.
  destruct (nonnull_run E w rounds digest s key (Some lo) Vs Vk Vo)
    as [(p & m & Hv & Hm & Hrun) | (d & ls & bs & lk & bk & lo' & bo & e & Hv & -> & -> & -> & [= <-] & Hs & Hk & Ho & He & Hrun)];
    rewrite Hrun; [done|].
  destruct e as [| | | |wr rep]; try done.
  pose proof (end_output_success d bo wr rep) as (Hopts & Havail & Hlen).
  set (bo' := end_output E d bo (EndSuccess wr rep)) in *.
  intros Heq.
  assert (Hh : heap w' = <[lo := bo']> (heap w)) by (by injection Heq as _ <-).
  rewrite Hh. clear Heq Hh.
  destruct (first_violated_None _ _ _ _ _ _ _ Hv)
    as (Hr & d' & ls' & bs' & lk' & bk' & lo' & bo1 & [= <-] & [= <-] & [= <-] & [= <-] & Hd & Hs' & Hbs & Hk' & Hbk & Ho' & Hw & Hsz).
  rewrite Hs in Hs'. rewrite Hk in Hk'. rewrite Ho in Ho'.
  injection Hs' as <-. injection Hk' as <-. injection Ho' as <-.
  destruct (digest_size_fits E d Hd) as [_ Hz].
  assert (Hne : st_length bo <> 0%N -> st_length bo' <> 0%N).
  { rewrite Hlen. destruct (tracked E bo); [lia|done]. }
  assert (Heff : digest_size E d <= Z.of_N (effective_size E bo')).
  { unfold effective_size in *. rewrite Hopts, Havail, Hlen.
    destruct (st_valid_avail E (st_opts bo)); [done|].
    destruct (tracked E bo); lia. }
  split.
  - unfold first_violated.
    destruct (N.leb_spec 1 rounds) as [_|]; [|lia]. cbn [negb digest_resolves].
    destruct (Z.leb_spec 1 (digest_size E d)) as [_|]; [|lia]. cbn [negb].
    rewrite (present_nonempty_insert_same _ _ _ _ _ _ Ho Hs Hbs Hne).
    rewrite (present_nonempty_insert_same _ _ _ _ _ _ Ho Hk Hbk Hne).
    cbn [negb output_fits]. rewrite lookup_insert_eq.
    unfold writable in *. rewrite Hopts, Hw.
    by destruct (Z.leb_spec (digest_size E d) (Z.of_N (effective_size E bo'))); [|lia].
  - exists d, bo, bo'. split; [done|]. split; [done|].
    split; [apply lookup_insert_eq|].
    intros Ht. split.
    + eapply present_nonempty_intro; [apply lookup_insert_eq|].
      rewrite Hlen, Ht. lia.
    + intros Hna. unfold effective_size. rewrite Hopts, Hna, Hlen, Ht. done.
Qed.

(** ** The single-round entry and the named wrappers *)

Lemma first_violated_rounds h rounds digest s key output :
  first_violated E h rounds digest s key output = Some PreRounds ->
  (rounds < 1)%N.
Proof.
  unfold first_violated.
  destruct (N.leb_spec 1 rounds); [|done]. cbn [negb].
  destruct (digest_resolves E digest); [|done].
  destruct (present_nonempty h s); [|done].
  destruct (present_nonempty h key); [|done].
  by destruct (output_fits E h digest output).
Qed.

(** X8. [hmac_digest] never fails on the round count, makes at most one
    update call, and makes exactly one when it returns a stringer; this on
    both paths. *)
Theorem hmac_digest_single_round w digest s key output :
  valid_ptr (heap w) s = true ->
  valid_ptr (heap w) key = true ->
  valid_ptr (heap w) output = true ->
  exists r w' evs,
    hmac_digest E digest s key output w = Done r w'
    /\ trace w' = trace w ++ evs
    /\ (EvLog LogRounds ∉ evs)
    /\ (count is_update evs <= 1)%nat
    /\ (r <> None -> count is_update evs = 1%nat).
Proof.
  intros Vs Vk Vo. unfold hmac_digest.
  assert (Hnr : forall h o p m,
             first_violated E h 1 digest s key o = Some p ->
             precondition_of m = Some p -> m <> LogRounds).
  { intros h o p m Hv Hm ->. injection Hm as <-.
    apply first_violated_rounds in Hv. lia. }
  assert (Hnl : forall d bs bk lo e,
             EvLog LogRounds ∉ end_events E 1 d bs bk lo e).
  { intros d bs bk lo e Hin. apply end_events_log_kind in Hin. by destruct e. }
  assert (Hup : forall d e, end_ok E 1 d e -> (end_updates 1 e <= 1)%nat).
  { intros d e He. by apply end_updates_le in He. }
  destruct output as [lo|]; simpl hmac_multi_digest.
  - destruct (nonnull_run E w 1 digest s key (Some lo) Vs Vk Vo)
      as [(p & m & Hv & Hm & Hrun) | (d & ls & bs & lk & bk & lo' & bo & e & Hv & -> & -> & -> & [= <-] & Hs & Hk & Ho & He & Hrun)].
    + eexists _, _, [EvLog m]. split; [exact Hrun|]. split; [done|].
      split. { intros Hin. in_cases Hin. injection Hin as <-. by eapply Hnr. }
      split; [unfold count, only; simpl; lia|done].
    + eexists _, _, _. split; [exact Hrun|]. split; [reflexivity|].
      split; [apply Hnl|]. rewrite count_update_end_events.
      split; [by eapply Hup|]. by destruct e.
  - destruct (null_output_cases w 1 digest s key Vs Vk)
      as [[_ Hrun] | [(b0 & p & m & _ & Hv & Hm & Hrun) | (b0 & d & ls & bs & lk & bk & e & _ & _ & _ & _ & _ & _ & _ & He & [[Hret Hrun] | [Hret Hrun]])]];
      (eexists _, _, _; split; [exact Hrun|]; split; [reflexivity|]).
    + split. { intros Hin. in_cases Hin. }
      split; [unfold count, only; simpl; lia|done].
    + split. { intros Hin. in_cases Hin. injection Hin as <-. by eapply Hnr. }
      split; [unfold count, only; simpl; lia|done].
    + split.
      { intros Hin. apply elem_of_cons in Hin. destruct Hin as [|Hin]; [done|].
        apply elem_of_app in Hin. destruct Hin as [Hin|Hin]; [by apply Hnl in Hin|].
        in_cases Hin. }
      rewrite count_cons, count_app, count_update_end_events.
      split; [|done]. apply Hup in He. unfold count, only. simpl. lia.
    + split.
      { intros Hin. apply elem_of_cons in Hin. destruct Hin as [|Hin]; [done|].
        by apply Hnl in Hin. }
      rewrite count_cons, count_update_end_events.
      split; [apply Hup in He; simpl; lia|]. intros _. by destruct e.
Qed.

Context (D : Digests E).

(** X12. [hmac_sha512] is [hmac_multi_sha512] with one round.  And when
    the getter of a wrapper's digest answers [NULL], the wrapper returns
    [NULL] and leaves the heap as it was, with a supplied output and
    without. *)
Theorem wrappers_absent_handle w s key output :
  valid_ptr (heap w) s = true ->
  valid_ptr (heap w) key = true ->
  valid_ptr (heap w) output = true ->
  let fails (run : M E ptr) := exists w', run w = Done None w' /\ heap w' = heap w in
  hmac_sha512 E D s key output w = hmac_multi_sha512 E D 1 s key output w
  /\ (EVP_md4_d D = None -> fails (hmac_md4 E D s key output))
  /\ (EVP_md5_d D = None -> fails (hmac_md5 E D s key output))
  /\ (EVP_sha_d D = None -> fails (hmac_sha E D s key output))
  /\ (EVP_sha1_d D = None -> fails (hmac_sha1 E D s key output))
  /\ (EVP_sha224_d D = None -> fails (hmac_sha224 E D s key output))
  /\ (EVP_sha256_d D = None -> fails (hmac_sha256 E D s key output))
  /\ (EVP_sha384_d D = None -> fails (hmac_sha384 E D s key output))
  /\ (EVP_sha512_d D = None -> fails (hmac_sha512 E D s key output))
  /\ (EVP_ripemd160_d D = None -> fails (hmac_ripemd160 E D s key output))
  /\ (forall rounds, EVP_sha512_d D = None ->
      fails (hmac_multi_sha512 E D rounds s key output)).
Proof.
  intros Vs Vk Vo fails.
  assert (H : forall rounds, fails (hmac_multi_digest E rounds None s key output)).
  { intros rounds.
    destruct (invalid_arguments_run w rounds None s key output Vs Vk Vo)
      as (w' & evs & Hrun & _ & Hh & _); [by right; left|].
    by exists w'. }
  split; [done|].
  unfold hmac_md4, hmac_md5, hmac_sha, hmac_sha1, hmac_sha224, hmac_sha256,
    hmac_sha384, hmac_sha512, hmac_ripemd160, hmac_multi_sha512, hmac_digest.
  repeat split; intros; try match goal with Hn : _ = None |- _ => rewrite Hn end;
    apply H.
Qed.

(** ** Sizes *)

(** X13. When finalize stored as many bytes as it reported, and the data
    region of the output is at least as long as the effective size the
    check looked at, a successful call has written within the region: the
    region is as long as before, its first bytes, as many as the digest's
    size, are those finalize stored, and the bytes after them are
    unchanged. *)
Theorem successful_write_in_bounds w rounds digest s key lo bo l' w' :
  valid_ptr (heap w) s = true ->
  valid_ptr (heap w) key = true ->
  heap w !! lo = Some bo ->
  (effective_size E bo <= N.of_nat (length (st_data bo)))%N ->
  hmac_multi_digest E rounds digest s key (Some lo) w = Done (Some l') w' ->
  (forall dst st wr rep,
      EvHmacFinal dst st wr rep ∈ trace w' ->
      Z.of_nat (length wr) = uint_t_of rep) ->
  exists d bo' wr,
    digest = Some d
    /\ heap w' !! lo = Some bo'
    /\ Z.of_nat (length wr) = digest_size E d
    /\ length (st_data bo') = length (st_data bo)
    /\ take (length wr) (st_data bo') = wr
    /\ drop (length wr) (st_data bo') = drop (length wr) (st_data bo).
Proof.
  intros Vs Vk Ho Hreg. simpl hmac_multi_digest.
  destruct (nonnull_run E w rounds digest s key (Some lo) Vs Vk (valid_ptr_intro _ _ _ Ho))
    as [(p & m & Hv & Hm & Hrun) | (d & ls & bs & lk & bk & lo' & bo1 & e & Hv & -> & -> & -> & [= <-] & Hs & Hk & Ho' & He & Hrun)];
    rewrite Hrun; [done|].
  rewrite Ho in Ho'. injection Ho' as <-.
  destruct e as [| | | |wr rep]; try done.
  intros Heq Hprim.
  assert (Hw' : w' = {| heap := <[lo := end_output E d bo (EndSuccess wr rep)]> (heap w);
                        trace := trace w ++ end_events E rounds d bs bk lo (EndSuccess wr rep) |})
    by congruence.
  subst w'. clear Heq. cbn [heap trace] in *.
  assert (Hlen : Z.of_nat (length wr) = digest_size E d).
  { simpl in He. rewrite <- He. apply (Hprim lo 1).
    apply elem_of_app. right. unfold end_events.
    do 2 (apply elem_of_app; right). apply elem_of_cons. by left. }
  destruct (first_violated_None _ _ _ _ _ _ _ Hv)
    as (_ & d' & _ & _ & _ & _ & lo' & bo1 & [= <-] & _ & _ & [= <-] & _ & _ & _ & _ & _ & Ho' & _ & Hsz).
  rewrite Ho in Ho'. injection Ho' as <-.
  assert (Hdata : st_data (end_output E d bo (EndSuccess wr rep))
                  = wr ++ drop (length wr) (st_data bo)).
  { simpl. by destruct (tracked E bo). }
  exists d, (end_output E d bo (EndSuccess wr rep)), wr.
  split; [done|]. split; [apply lookup_insert_eq|]. split; [done|].
  rewrite Hdata. split; [|split].
  - rewrite length_app, length_drop. lia.
  - apply take_app_length.
  - apply drop_app_length.
Qed.

(** X14. When the size query answers a negative size (as it does for an
    absent handle in OpenSSL), the auto-allocation path asks the allocator
    for that size converted to [size_t], which is at least 2^64 - 2^31
    bytes, before anything is validated; the call then returns [NULL] and
    the heap is as before, whatever the allocator answered. *)
Theorem negative_size_huge_request w rounds digest s key :
  valid_ptr (heap w) s = true ->
  valid_ptr (heap w) key = true ->
  int_t_of (EVP_MD_size_d E digest) < 0 ->
  exists w' n res evs,
    hmac_multi_digest E rounds digest s key None w = Done None w'
    /\ trace w' = trace w ++ EvAlloc n res :: evs
    /\ 2 ^ 64 - 2 ^ 31 <= Z.of_N n < 2 ^ 64
    /\ heap w' = heap w.
Proof.
  intros Vs Vk Hneg.
  assert (Hd : digest_resolves E digest = false).
  { destruct digest as [d|]; [|done]. simpl. unfold digest_size.
    destruct (Z.leb_spec 1 (int_t_of (EVP_MD_size_d E (Some d)))); [lia|done]. }
  destruct (invalid_arguments_run w rounds digest s key None Vs Vk eq_refl)
    as (w' & evs & Hrun & _ & Hh & _); [by right; left|].
  destruct (null_output_asks_allocator_first E w rounds digest s key Vs Vk)
    as (r & w1 & res & evs1 & Hrun1 & Ht).
  simpl hmac_multi_digest in Hrun. rewrite Hrun in Hrun1.
  injection Hrun1 as <- <-.
  exists w', (size_t_of (int_t_of (EVP_MD_size_d E digest))), res, evs1.
  split; [exact Hrun|]. split; [exact Ht|]. split; [|done].
  pose proof (int_t_of_range (EVP_MD_size_d E digest)) as R.
  unfold size_t_of.
  replace (int_t_of (EVP_MD_size_d E digest) mod 2 ^ 64)
    with (int_t_of (EVP_MD_size_d E digest) + 2 ^ 64).
  - lia.
  - apply Z.mod_unique with (q := -1); lia.
Qed.

End HmacMore.

(** ** Calls that meet the hypotheses of the further theorems *)

(** X1 on three rounds into the block at 3. *)
Lemma supplied_output_ownership_witness :
  let E := Toy_ok in
  let w : world E := world3 E in
  let rounds := 3%N in
  let digest : option (digest_t E) := Some 4 in
  let s := Some 1%positive in
  let key := Some 2%positive in
  let lo := 3%positive in
  ((valid_ptr (heap w) s = true)
   /\ (valid_ptr (heap w) key = true)
   /\ (valid_ptr (heap w) (Some lo) = true))
  /\
  exists r w' evs,
    hmac_multi_digest E rounds digest s key (Some lo) w = Done r w'
    /\ trace w' = trace w ++ evs
    /\ (r = None \/ r = Some lo)
    /\ count is_alloc evs = 0%nat
    /\ count is_free evs = 0%nat
    /\ dom (heap w') = dom (heap w).
Proof.
  intros E w rounds digest s key lo.
  split; [repeat split; reflexivity|].
  apply (supplied_output_ownership E w rounds digest s key lo); reflexivity.
Defined.

(** X3 on an absent digest and an absent output. *)
Lemma invalid_arguments_rejected_witness :
  let E := Toy_ok in
  let w : world E := world3 E in
  let rounds := 1%N in
  let digest : option (digest_t E) := None in
  let s := Some 1%positive in
  let key := Some 2%positive in
  let output : ptr := None in
  ((valid_ptr (heap w) s = true)
   /\ (valid_ptr (heap w) key = true)
   /\ (valid_ptr (heap w) output = true)
   /\ ((rounds < 1)%N \/ digest_resolves E digest = false \/ present_nonempty (heap w) s = false \/ present_nonempty (heap w) key = false))
  /\
  exists w' evs,
    hmac_multi_digest E rounds digest s key output w = Done None w'
    /\ trace w' = trace w ++ evs
    /\ heap w' = heap w
    /\ count is_crypto evs = 0%nat.
Proof.
  intros E w rounds digest s key output.
  split; [repeat split; first [reflexivity | right; left; reflexivity]|].
  apply (invalid_arguments_rejected E w rounds digest s key output); first [reflexivity | right; left; reflexivity].
Defined.

(** X4 on the auto-allocation path with an update that fails. *)
Lemma one_message_per_failure_witness :
  let E := Toy 1 0 1 0 in
  let w : world E := world3 E in
  let rounds := 2%N in
  let digest : option (digest_t E) := Some 4 in
  let s := Some 1%positive in
  let key := Some 2%positive in
  let output : ptr := None in
  ((valid_ptr (heap w) s = true)
   /\ (valid_ptr (heap w) key = true)
   /\ (valid_ptr (heap w) output = true))
  /\
  exists r w' evs,
    hmac_multi_digest E rounds digest s key output w = Done r w'
    /\ trace w' = trace w ++ evs
    /\ count is_log evs = match r with Some _ => 0%nat | None => 1%nat end.
Proof.
  intros E w rounds digest s key output.
  split; [repeat split; reflexivity|].
  apply (one_message_per_failure E w rounds digest s key output); reflexivity.
Defined.

(** X5 on the auto-allocation path with a finalize that disagrees with the size query. *)
Lemma public_entry_context_balanced_witness :
  let E := Toy 1 1 1 1 in
  let w : world E := world3 E in
  let rounds := 2%N in
  let digest : option (digest_t E) := Some 4 in
  let s := Some 1%positive in
  let key := Some 2%positive in
  let output : ptr := None in
  ((valid_ptr (heap w) s = true)
   /\ (valid_ptr (heap w) key = true)
   /\ (valid_ptr (heap w) output = true))
  /\
  exists r w' evs,
    hmac_multi_digest E rounds digest s key output w = Done r w'
    /\ trace w' = trace w ++ evs
    /\ open_contexts evs = 0
    /\ (count is_ctx_init evs <= 1)%nat
    /\ forall l', EvFree l' ∈ evs ->
         exists pre, evs = pre ++ [EvFree l'] /\ open_contexts pre = 0.
Proof.
  intros E w rounds digest s key output.
  split; [repeat split; reflexivity|].
  apply (public_entry_context_balanced E w rounds digest s key output); reflexivity.
Defined.

(** X7 on a successful call. *)
Lemma allocator_accounting_witness :
  let E := Toy_ok in
  let w : world E := world3 E in
  let rounds := 1%N in
  let digest : option (digest_t E) := Some 4 in
  let s := Some 1%positive in
  let key := Some 2%positive in
  ((valid_ptr (heap w) s = true)
   /\ (valid_ptr (heap w) key = true))
  /\
  let l := fresh (dom (heap w)) in
  exists r w' evs,
    hmac_multi_digest E rounds digest s key None w = Done r w'
    /\ trace w' = trace w ++ evs
    /\ count is_alloc evs = 1%nat
    /\ (count is_free evs <= 1)%nat
    /\ (forall l', EvFree l' ∈ evs ->
        l' = l /\ r = None /\ exists n, EvAlloc n (Some l) ∈ evs)
    /\ (r = None -> dom (heap w') = dom (heap w))
    /\ (r <> None ->
        r = Some l /\ (l ∉ dom (heap w))
        /\ dom (heap w') = {[l]} ∪ dom (heap w)
        /\ count is_free evs = 0%nat).
Proof.
  intros E w rounds digest s key.
  split; [repeat split; reflexivity|].
  apply (allocator_accounting E w rounds digest s key); reflexivity.
Defined.

(** X6 on one round with a 2-byte digest. *)
Lemma fresh_output_contents_witness :
  let E := Toy_ok in
  let w : world E := world3 E in
  let rounds := 1%N in
  let digest : option (digest_t E) := Some 2 in
  let s := Some 1%positive in
  let key := Some 2%positive in
  let l' := 4%positive in
  let w' : world E := World (<[4%positive := Stringer 2 2 2 [x6b; x61]]> heap3)
      [EvAlloc 2 (Some 4%positive); EvCtxInit; EvHmacInit (E:=E) [x6b] 1 2;
       EvHmacUpdate [x61; x62] 2; EvHmacFinal 4%positive 1 [x6b; x61] 2;
       EvCtxCleanup] in
  ((valid_ptr (heap w) s = true)
   /\ (valid_ptr (heap w) key = true)
   /\ (hmac_multi_digest E rounds digest s key None w = Done (Some l') w'))
  /\
  exists b0 d wr rep,
    digest = Some d
    /\ st_alloc E (size_t_of (digest_size E d)) = Some b0
    /\ Z.of_N (size_t_of (digest_size E d)) = digest_size E d
    /\ l' = fresh (dom (heap w))
    /\ writable E b0 = true
    /\ digest_size E d <= Z.of_N (effective_size E b0)
    /\ uint_t_of rep = digest_size E d
    /\ EvHmacFinal l' 1 wr rep ∈ trace w'
    /\ heap w' !! l'
       = Some {| st_opts := st_opts b0;
                 st_length := if tracked E b0 then size_t_of (digest_size E d)
                              else st_length b0;
                 st_avail := st_avail b0;
                 st_data := write_at0 wr (st_data b0) |}.
Proof.
  intros E w rounds digest s key l' w'.
  split; [repeat split; reflexivity|].
  apply (fresh_output_contents E w rounds digest s key l' w'); reflexivity.
Defined.

(** X11 on the tracked 4-byte block at 3 and a 2-byte digest: the block has become a 2-byte one. *)
Lemma success_keeps_call_valid_witness :
  let E := Toy_ok in
  let w : world E := world3 E in
  let rounds := 1%N in
  let digest : option (digest_t E) := Some 2 in
  let s := Some 1%positive in
  let key := Some 2%positive in
  let lo := 3%positive in
  let l' := 3%positive in
  let w' : world E := World (<[3%positive := Stringer 6 2 0 [x6b; x61; x3f; x3f]]> heap3)
      [EvCtxInit; EvHmacInit (E:=E) [x6b] 1 2; EvHmacUpdate [x61; x62] 2;
       EvHmacFinal 3%positive 1 [x6b; x61] 2; EvCtxCleanup] in
  ((valid_ptr (heap w) s = true)
   /\ (valid_ptr (heap w) key = true)
   /\ (valid_ptr (heap w) (Some lo) = true)
   /\ (hmac_multi_digest E rounds digest s key (Some lo) w = Done (Some l') w'))
  /\
  first_violated E (heap w') rounds digest s key (Some lo) = None
  /\ exists d bo bo',
       digest = Some d /\ heap w !! lo = Some bo /\ heap w' !! lo = Some bo'
       /\ (tracked E bo = true ->
           present_nonempty (heap w') (Some lo) = true
           /\ (st_valid_avail E (st_opts bo) = false ->
               Z.of_N (effective_size E bo') = digest_size E d)).
Proof.
  intros E w rounds digest s key lo l' w'.
  split; [repeat split; reflexivity|].
  apply (success_keeps_call_valid E w rounds digest s key lo l' w'); reflexivity.
Defined.

(** X8 on a successful call with the output absent. *)
Lemma hmac_digest_single_round_witness :
  let E := Toy_ok in
  let w : world E := world3 E in
  let digest : option (digest_t E) := Some 4 in
  let s := Some 1%positive in
  let key := Some 2%positive in
  let output : ptr := None in
  ((valid_ptr (heap w) s = true)
   /\ (valid_ptr (heap w) key = true)
   /\ (valid_ptr (heap w) output = true))
  /\
  exists r w' evs,
    hmac_digest E digest s key output w = Done r w'
    /\ trace w' = trace w ++ evs
    /\ (EvLog LogRounds ∉ evs)
    /\ (count is_update evs <= 1)%nat
    /\ (r <> None -> count is_update evs = 1%nat).
Proof.
  intros E w digest s key output.
  split; [repeat split; reflexivity|].
  apply (hmac_digest_single_round E w digest s key output); reflexivity.
Defined.

(** X12 with the SHA-512 getter answering [NULL]. *)
Lemma wrappers_absent_handle_witness :
  let E := Toy_ok in
  let w : world E := world3 E in
  let D : Digests E := Toy_digests None in
  let s := Some 1%positive in
  let key := Some 2%positive in
  let output : ptr := Some 3%positive in
  ((valid_ptr (heap w) s = true)
   /\ (valid_ptr (heap w) key = true)
   /\ (valid_ptr (heap w) output = true))
  /\
  let fails (run : M E ptr) := exists w', run w = Done None w' /\ heap w' = heap w in
  hmac_sha512 E D s key output w = hmac_multi_sha512 E D 1 s key output w
  /\ (EVP_md4_d D = None -> fails (hmac_md4 E D s key output))
  /\ (EVP_md5_d D = None -> fails (hmac_md5 E D s key output))
  /\ (EVP_sha_d D = None -> fails (hmac_sha E D s key output))
  /\ (EVP_sha1_d D = None -> fails (hmac_sha1 E D s key output))
  /\ (EVP_sha224_d D = None -> fails (hmac_sha224 E D s key output))
  /\ (EVP_sha256_d D = None -> fails (hmac_sha256 E D s key output))
  /\ (EVP_sha384_d D = None -> fails (hmac_sha384 E D s key output))
  /\ (EVP_sha512_d D = None -> fails (hmac_sha512 E D s key output))
  /\ (EVP_ripemd160_d D = None -> fails (hmac_ripemd160 E D s key output))
  /\ (forall rounds, EVP_sha512_d D = None ->
      fails (hmac_multi_sha512 E D rounds s key output)).
Proof.
  intros E w D s key output.
  split; [repeat split; reflexivity|].
  apply (wrappers_absent_handle E D w s key output); reflexivity.
Defined.

(** X13 on the 4-byte block at 3 and a 2-byte digest: bytes 2 and 3 keep
    their "??". *)
Lemma successful_write_in_bounds_witness :
  let E := Toy_ok in
  let w : world E := world3 E in
  let rounds := 1%N in
  let digest : option (digest_t E) := Some 2 in
  let s := Some 1%positive in
  let key := Some 2%positive in
  let lo := 3%positive in
  let bo := Stringer 6 4 0 [x3f; x3f; x3f; x3f] in
  let l' := 3%positive in
  let w' : world E := World (<[3%positive := Stringer 6 2 0 [x6b; x61; x3f; x3f]]> heap3)
      [EvCtxInit; EvHmacInit (E:=E) [x6b] 1 2; EvHmacUpdate [x61; x62] 2;
       EvHmacFinal 3%positive 1 [x6b; x61] 2; EvCtxCleanup] in
  ((valid_ptr (heap w) s = true)
   /\ (valid_ptr (heap w) key = true)
   /\ (heap w !! lo = Some bo)
   /\ (effective_size E bo <= N.of_nat (length (st_data bo)))%N
   /\ (hmac_multi_digest E rounds digest s key (Some lo) w = Done (Some l') w')
   /\ (forall dst st wr rep,
         EvHmacFinal dst st wr rep ∈ trace w' ->
         Z.of_nat (length wr) = uint_t_of rep))
  /\
  exists d bo' wr,
    digest = Some d
    /\ heap w' !! lo = Some bo'
    /\ Z.of_nat (length wr) = digest_size E d
    /\ length (st_data bo') = length (st_data bo)
    /\ take (length wr) (st_data bo') = wr
    /\ drop (length wr) (st_data bo') = drop (length wr) (st_data bo).
Proof.
  intros E w rounds digest s key lo bo l' w'.
  assert (Hprim : forall dst st wr rep,
             EvHmacFinal dst st wr rep ∈ trace w' ->
             Z.of_nat (length wr) = uint_t_of rep).
  { intros dst st wr rep Hin. simpl in Hin. in_cases Hin.
    injection Hin as -> -> -> ->. reflexivity. }
  split.
  { split; [reflexivity|]. split; [reflexivity|]. split; [reflexivity|].
    split; [by vm_compute|]. split; [reflexivity|]. exact Hprim. }
  apply (successful_write_in_bounds E w rounds digest s key lo bo l' w');
    first [reflexivity | exact Hprim | by vm_compute].
Defined.

(** X14 on an absent handle, for which the size query answers -1. *)
Lemma negative_size_huge_request_witness :
  let E := Toy_ok in
  let w : world E := world3 E in
  let rounds := 1%N in
  let digest : option (digest_t E) := None in
  let s := Some 1%positive in
  let key := Some 2%positive in
  ((valid_ptr (heap w) s = true)
   /\ (valid_ptr (heap w) key = true)
   /\ (int_t_of (EVP_MD_size_d E digest) < 0))
  /\
  exists w' n res evs,
    hmac_multi_digest E rounds digest s key None w = Done None w'
    /\ trace w' = trace w ++ EvAlloc n res :: evs
    /\ 2 ^ 64 - 2 ^ 31 <= Z.of_N n < 2 ^ 64
    /\ heap w' = heap w.
Proof.
  intros E w rounds digest s key.
  split; [repeat split; reflexivity|].
  apply (negative_size_huge_request E w rounds digest s key); reflexivity.
Defined.

(** ** Calls for the theorems that speak of the answers of the primitive *)

(** C1 on three rounds over "ab" with key "k" and a 4-byte digest. *)
Lemma C1_round_protocol_witness :
  let E := Toy_ok in
  let w : world E := world3 E in
  let rounds := 3%N in
  let digest : option (digest_t E) := Some 4 in
  let s := Some 1%positive in
  let key := Some 2%positive in
  let output := Some 3%positive in
  ((first_violated E (heap w) rounds digest s key output = None))
  /\
  exists d ls bs lk bk lo bo r w' evs,
    digest = Some d /\ s = Some ls /\ key = Some lk /\ output = Some lo
    /\ heap w !! ls = Some bs /\ heap w !! lk = Some bk /\ heap w !! lo = Some bo
    /\ hmac_multi_digest_nonnull_output E rounds digest s key output w = Done r w'
    /\ trace w' = trace w ++ evs
    /\ count is_ctx_init evs = 1%nat
    /\ only is_keying evs
       = [EvHmacInit (st_data bk) (int_of_size_t (st_length bk)) d]
    /\ (Z.of_N (st_length bk) < 2 ^ 31 ->
        int_of_size_t (st_length bk) = Z.of_N (st_length bk))
    /\ (exists k, (k <= N.to_nat rounds)%nat
                  /\ only is_update evs
                     = repeat (EvHmacUpdate (st_data bs) (st_length bs)) k)
    /\ (count is_final evs <= 1)%nat
    /\ (fst (keying E d bk) <> 1 ->
        r = None /\ count is_update evs = 0%nat /\ count is_final evs = 0%nat)
    /\ (fst (keying E d bk) = 1 ->
        forall j,
          (j < N.to_nat rounds)%nat ->
          (forall k, (k < j)%nat ->
                     update_status E (snd (keying E d bk)) bs k = 1) ->
          update_status E (snd (keying E d bk)) bs j <> 1 ->
          r = None /\ count is_update evs = S j /\ count is_final evs = 0%nat)
    /\ (fst (keying E d bk) = 1 ->
        (forall k, (k < N.to_nat rounds)%nat ->
                   update_status E (snd (keying E d bk)) bs k = 1) ->
        exists st wr rep c tail bo',
          HMAC_Final_d E (fed E (N.to_nat rounds) (snd (keying E d bk)) bs)
          = (st, wr, rep, c)
          /\ evs = [EvCtxInit;
                    EvHmacInit (st_data bk) (int_of_size_t (st_length bk)) d]
                   ++ repeat (EvHmacUpdate (st_data bs) (st_length bs)) (N.to_nat rounds)
                   ++ EvHmacFinal lo st wr rep :: tail
          /\ count is_keying tail = 0%nat /\ count is_update tail = 0%nat
          /\ count is_final tail = 0%nat
          /\ heap w' !! lo = Some bo'
          /\ st_data bo' = write_at0 wr (st_data bo)).
Proof.
  intros E w rounds digest s key output.
  split; [repeat split; reflexivity|].
  apply (C1_round_protocol E w rounds digest s key output); reflexivity.
Defined.

(** C9 on a call whose update calls fail. *)
Lemma C9_failure_value_witness :
  let E := Toy 1 0 1 0 in
  let w : world E := world3 E in
  let rounds := 2%N in
  let digest : option (digest_t E) := Some 4 in
  let s := Some 1%positive in
  let key := Some 2%positive in
  let output := Some 3%positive in
  ((valid_ptr (heap w) s = true)
   /\ (valid_ptr (heap w) key = true)
   /\ (valid_ptr (heap w) output = true))
  /\
  exists r w' evs,
    hmac_multi_digest E rounds digest s key output w = Done r w'
    /\ trace w' = trace w ++ evs
    /\ (forall m, EvLog m ∈ evs -> r = None)
    /\ (r = None -> exists m, EvLog m ∈ evs)
    /\ (engine_view E w digest output = None -> r = None)
    /\ forall h lo,
         engine_view E w digest output = Some (h, lo) ->
         (forall p, first_violated E h rounds digest s key (Some lo) = Some p ->
                    r = None)
         /\ forall d ls bs lk bk,
              first_violated E h rounds digest s key (Some lo) = None ->
              digest = Some d -> s = Some ls -> key = Some lk ->
              h !! ls = Some bs -> h !! lk = Some bk ->
              (fst (keying E d bk) <> 1 -> r = None)
              /\ (fst (keying E d bk) = 1 ->
                  forall j, (j < N.to_nat rounds)%nat ->
                            update_status E (snd (keying E d bk)) bs j <> 1 ->
                            r = None)
              /\ (fst (keying E d bk) = 1 ->
                  (forall k, (k < N.to_nat rounds)%nat ->
                             update_status E (snd (keying E d bk)) bs k = 1) ->
                  forall st wr rep c,
                    HMAC_Final_d E (fed E (N.to_nat rounds) (snd (keying E d bk)) bs)
                    = (st, wr, rep, c) ->
                    (st <> 1 -> r = None)
                    /\ (st = 1 -> uint_t_of rep <> digest_size E d -> r = None)
                    /\ (st = 1 -> uint_t_of rep = digest_size E d -> r = Some lo)).
Proof.
  intros E w rounds digest s key output.
  split; [repeat split; reflexivity|].
  apply (C9_failure_value E w rounds digest s key output); reflexivity.
Defined.

(** X10 on three rounds over "ab" with key "k" and a 2-byte digest. *)
Lemma success_means_full_protocol_witness :
  let E := Toy_ok in
  let w : world E := world3 E in
  let rounds := 3%N in
  let digest : option (digest_t E) := Some 2 in
  let s := Some 1%positive in
  let key := Some 2%positive in
  let lo := 3%positive in
  let l' := 3%positive in
  let w' : world E := World (<[3%positive := Stringer 6 2 0 [x6b; x61; x3f; x3f]]> heap3)
      [EvCtxInit; EvHmacInit (E:=E) [x6b] 1 2; EvHmacUpdate [x61; x62] 2;
       EvHmacUpdate [x61; x62] 2; EvHmacUpdate [x61; x62] 2;
       EvHmacFinal 3%positive 1 [x6b; x61] 2; EvCtxCleanup] in
  ((valid_ptr (heap w) s = true)
   /\ (valid_ptr (heap w) key = true)
   /\ (valid_ptr (heap w) (Some lo) = true)
   /\ (hmac_multi_digest E rounds digest s key (Some lo) w = Done (Some l') w'))
  /\
  l' = lo
  /\ first_violated E (heap w) rounds digest s key (Some lo) = None
  /\ exists d ls bs lk bk wr rep c,
       digest = Some d /\ s = Some ls /\ key = Some lk
       /\ heap w !! ls = Some bs /\ heap w !! lk = Some bk
       /\ fst (keying E d bk) = 1
       /\ (forall k, (k < N.to_nat rounds)%nat ->
                     update_status E (snd (keying E d bk)) bs k = 1)
       /\ HMAC_Final_d E (fed E (N.to_nat rounds) (snd (keying E d bk)) bs)
          = (1, wr, rep, c)
       /\ uint_t_of rep = digest_size E d
       /\ (Z.of_N (st_length bk) < 2 ^ 31 ->
           int_of_size_t (st_length bk) = Z.of_N (st_length bk))
       /\ trace w'
          = trace w
            ++ [EvCtxInit;
                EvHmacInit (st_data bk) (int_of_size_t (st_length bk)) d]
            ++ repeat (EvHmacUpdate (st_data bs) (st_length bs)) (N.to_nat rounds)
            ++ [EvHmacFinal lo 1 wr rep; EvCtxCleanup].
Proof.
  intros E w rounds digest s key lo l' w'.
  split; [repeat split; reflexivity|].
  apply (success_means_full_protocol E w rounds digest s key lo l' w'); reflexivity.
Defined.

(** X2 on the 64-byte block at 4, whose length was 0, and a 4-byte digest. *)
Lemma supplied_output_frame_witness :
  let E := Toy_ok in
  let w : world E := World heap4 [] in
  let rounds := 1%N in
  let digest : option (digest_t E) := Some 4 in
  let s := Some 1%positive in
  let key := Some 2%positive in
  let lo := 4%positive in
  let bo := Stringer 7 0 64 (repeat x00 64) in
  let r := Some 4%positive in
  let w' : world E :=
    World (<[4%positive := Stringer 7 4 64 ([x6b; x61; x62; x00] ++ repeat x00 60)]> heap4)
      [EvCtxInit; EvHmacInit (E:=E) [x6b] 1 4; EvHmacUpdate [x61; x62] 2;
       EvHmacFinal 4%positive 1 [x6b; x61; x62; x00] 4; EvCtxCleanup] in
  ((valid_ptr (heap w) s = true)
   /\ (valid_ptr (heap w) key = true)
   /\ (heap w !! lo = Some bo)
   /\ (hmac_multi_digest E rounds digest s key (Some lo) w = Done r w')
   /\ (forall evs dst st wr rep,
         trace w' = trace w ++ evs ->
         EvHmacFinal dst st wr rep ∈ evs ->
         (length wr <= length (st_data bo))%nat))
  /\
  exists bo',
    heap w' !! lo = Some bo'
    /\ st_opts bo' = st_opts bo
    /\ st_avail bo' = st_avail bo
    /\ length (st_data bo') = length (st_data bo)
    /\ forall l', l' <> lo -> heap w' !! l' = heap w !! l'.
Proof.
  intros E w rounds digest s key lo bo r w'.
  assert (Hfit : forall evs dst st wr rep,
             trace w' = trace w ++ evs ->
             EvHmacFinal dst st wr rep ∈ evs ->
             (length wr <= length (st_data bo))%nat).
  { intros evs dst st wr rep Ht Hin. simpl in Ht. subst evs.
    in_cases Hin. injection Hin as -> -> -> ->. simpl. lia. }
  split.
  { split; [reflexivity|]. split; [reflexivity|]. split; [reflexivity|].
    split; [reflexivity|]. exact Hfit. }
  apply (supplied_output_frame E w rounds digest s key lo bo r w');
    first [reflexivity | exact Hfit].
Defined.
